(** * The Generalized Gamma fitter of lifelines

    A shallow embedding of [lifelines/fitters/generalized_gamma_fitter.py]
    (class [GeneralizedGammaFitter]) and the properties its specification
    states about it.

    The class is embedded once per reading of Python's numbers:

    - [Exact]: every scalar is a real number.  This is the reading in which
      the algebraic identities of the model (cumulative hazard against
      survival, the two branches against each other, ...) are stated.
    - [Float]: a scalar is a float64 without rounding, that is a real number
      or one of [inf], [-inf], [nan], and a call either returns or raises.
      This is the reading in which the behaviour at [lambda_ = 0] is stated.
    - [Float64]: as [Float] on numpy scalars, with every finite result
      brought into the range of float64, so that a result too large
      overflows to an infinity and one too small underflows to zero.  This
      is the reading in which the values the evaluators return are stated.

    The array functions of the source act elementwise; each evaluator is
    embedded at one time value. *)

From Stdlib Require Import Reals Lra String List.
Import ListNotations.
Open Scope R_scope.

(* ================================================================= *)
(** * Part I: definitions *)
(* ================================================================= *)

(** ** Exact reading: real numbers *)

Module Exact.

(** *** The numerical routines the class imports *)

(** [gammainc], [gammaincc] (regularized lower and upper incomplete gamma),
    [gammaincln], [gammainccln] (their logarithms), [gammaln] come from
    [autograd_gamma]; [gammaincinv], [gammainccinv] from [scipy.special].
    [MAX] is the bound of [lifelines.utils.safe_exp].  None of them is
    defined in the class's file: they are the interface it is written
    against. *)
Class SpecialFunctions : Type := {
  MAX : R;
  gammainc : R -> R -> R;
  gammaincc : R -> R -> R;
  gammaincln : R -> R -> R;
  gammainccln : R -> R -> R;
  gammaln : R -> R;
  gammaincinv : R -> R -> R;
  gammainccinv : R -> R -> R
}.

Section Model.
Context {SF : SpecialFunctions}.

(** Modelled from the spec: [lifelines.utils.safe_exp.safe_exp] is imported
    by the class and is not among the sources.  The specification describes
    it as a bounded exponential that clamps extreme exponents before
    exponentiating, so that no overflow to [inf] is produced: the exponent is
    capped at [MAX]. *)
Definition safe_exp (x : R) : R := exp (Rmin x MAX).

(** The parameter vector is unpacked as [mu_, ln_sigma_, lambda_ = params]. *)
Definition _survival_function (params : R * R * R) (times : R) : R :=
  let '(mu_, ln_sigma_, lambda_) := params in
  let sigma_ := safe_exp ln_sigma_ in
  let Z := (ln times - mu_) / sigma_ in
  if Rgt_dec lambda_ 0 then
    gammaincc (1 / lambda_ ^ 2) (safe_exp (lambda_ * Z - 2 * ln lambda_))
  else
    gammainc (1 / lambda_ ^ 2) (safe_exp (lambda_ * Z - 2 * ln (- lambda_))).

Definition _cumulative_hazard (params : R * R * R) (times : R) : R :=
  let '(mu_, ln_sigma_, lambda_) := params in
  let sigma_ := safe_exp ln_sigma_ in
  let Z := (ln times - mu_) / sigma_ in
  let ilambda_2 := 1 / lambda_ ^ 2 in
  if Rgt_dec lambda_ 0 then
    - gammainccln ilambda_2 (safe_exp (lambda_ * Z - 2 * ln lambda_))
  else
    - gammaincln ilambda_2 (safe_exp (lambda_ * Z - 2 * ln (- lambda_))).

Definition _log_1m_sf (params : R * R * R) (times : R) : R :=
  let '(mu_, ln_sigma_, lambda_) := params in
  let sigma_ := safe_exp ln_sigma_ in
  let Z := (ln times - mu_) / sigma_ in
  if Rgt_dec lambda_ 0 then
    gammaincln (1 / lambda_ ^ 2) (safe_exp (lambda_ * Z - 2 * ln lambda_))
  else
    gammainccln (1 / lambda_ ^ 2) (safe_exp (lambda_ * Z - 2 * ln (- lambda_))).

Definition _log_hazard (params : R * R * R) (times : R) : R :=
  let '(mu_, ln_sigma_, lambda_) := params in
  let ilambda_2 := 1 / lambda_ ^ 2 in
  let Z := (ln times - mu_) / safe_exp ln_sigma_ in
  if Rgt_dec lambda_ 0 then
    ln lambda_
    - ln times
    - ln_sigma_
    - gammaln ilambda_2
    + (lambda_ * Z - safe_exp (lambda_ * Z) - 2 * ln lambda_) * ilambda_2
    - gammainccln ilambda_2 (safe_exp (lambda_ * Z - 2 * ln lambda_))
  else
    ln (- lambda_)
    - ln times
    - ln_sigma_
    - gammaln ilambda_2
    + (lambda_ * Z - safe_exp (lambda_ * Z) - 2 * ln (- lambda_)) * ilambda_2
    - gammaincln ilambda_2 (safe_exp (lambda_ * Z - 2 * ln (- lambda_))).

(** The attributes [mu_], [ln_sigma_], [lambda_] of a fitted instance: the
    fitting framework stores the components of the fitted parameter vector
    under the names of [_fitted_parameter_names]. *)
Record GeneralizedGammaFitter : Type := {
  mu_ : R;
  ln_sigma_ : R;
  lambda_ : R
}.

Definition fitted_params (self : GeneralizedGammaFitter) : R * R * R :=
  (mu_ self, ln_sigma_ self, lambda_ self).

(** [percentile] reads the fitted attributes and uses the plain [exp]. *)
Definition percentile (self : GeneralizedGammaFitter) (p : R) : R :=
  let lambda_ := lambda_ self in
  let sigma_ := exp (ln_sigma_ self) in
  if Rgt_dec lambda_ 0 then
    exp (sigma_ * ln (gammainccinv (1 / lambda_ ^ 2) p * lambda_ ^ 2) / lambda_)
    * exp (mu_ self)
  else
    exp (sigma_ * ln (gammaincinv (1 / lambda_ ^ 2) p * lambda_ ^ 2) / lambda_)
    * exp (mu_ self).

End Model.

End Exact.

(** ** Float reading: special values and exceptions *)

Module Float.

(** A float64 without rounding: a real number, or one of the three special
    values.  Zero is the positive zero; overflow of a finite result is not
    represented. *)
Inductive npfloat : Type :=
| Fin (r : R)
| PInf
| NInf
| NaN.

Definition is_finite (x : npfloat) : bool :=
  match x with Fin _ => true | _ => false end.

Definition fneg (x : npfloat) : npfloat :=
  match x with
  | Fin r => Fin (- r)
  | PInf => NInf
  | NInf => PInf
  | NaN => NaN
  end.

Definition fadd (x y : npfloat) : npfloat :=
  match x, y with
  | NaN, _ | _, NaN => NaN
  | Fin a, Fin b => Fin (a + b)
  | PInf, NInf | NInf, PInf => NaN
  | PInf, _ | _, PInf => PInf
  | NInf, _ | _, NInf => NInf
  end.

Definition fsub (x y : npfloat) : npfloat := fadd x (fneg y).

(** An infinity [s] times the finite [r]: [nan] at zero, else signed. *)
Definition inf_times (s : npfloat) (r : R) : npfloat :=
  if Req_dec_T r 0 then NaN
  else if Rgt_dec r 0 then s else fneg s.

Definition fmul (x y : npfloat) : npfloat :=
  match x, y with
  | NaN, _ | _, NaN => NaN
  | Fin a, Fin b => Fin (a * b)
  | Fin a, PInf | PInf, Fin a => inf_times PInf a
  | Fin a, NInf | NInf, Fin a => inf_times NInf a
  | PInf, PInf | NInf, NInf => PInf
  | PInf, NInf | NInf, PInf => NInf
  end.

(** numpy's true division: a zero divisor gives [inf], [-inf] or [nan] (and
    a warning), never an exception. *)
Definition fdiv (x y : npfloat) : npfloat :=
  match x, y with
  | NaN, _ | _, NaN => NaN
  | Fin a, Fin b =>
      if Req_dec_T b 0 then
        if Req_dec_T a 0 then NaN
        else if Rgt_dec a 0 then PInf else NInf
      else Fin (a / b)
  | Fin _, PInf | Fin _, NInf => Fin 0
  | PInf, Fin b => if Rlt_dec b 0 then NInf else PInf
  | NInf, Fin b => if Rlt_dec b 0 then PInf else NInf
  | _, _ => NaN
  end.

(** [x ** 2] *)
Definition fsqr (x : npfloat) : npfloat :=
  match x with
  | Fin r => Fin (r ^ 2)
  | PInf | NInf => PInf
  | NaN => NaN
  end.

(** [numpy.log]: [-inf] at zero, [nan] below. *)
Definition flog (x : npfloat) : npfloat :=
  match x with
  | Fin r =>
      if Rgt_dec r 0 then Fin (ln r)
      else if Req_dec_T r 0 then NInf else NaN
  | PInf => PInf
  | NInf | NaN => NaN
  end.

(** [numpy.exp] *)
Definition fexp (x : npfloat) : npfloat :=
  match x with
  | Fin r => Fin (exp r)
  | PInf => PInf
  | NInf => Fin 0
  | NaN => NaN
  end.

(** The test [x > 0]: false on [nan]. *)
Definition fgt0 (x : npfloat) : bool :=
  match x with
  | Fin r => if Rgt_dec r 0 then true else false
  | PInf => true
  | NInf | NaN => false
  end.

Declare Scope fl_scope.
Delimit Scope fl_scope with fl.
Bind Scope fl_scope with npfloat.
Notation "x + y" := (fadd x y) : fl_scope.
Notation "x - y" := (fsub x y) : fl_scope.
Notation "x * y" := (fmul x y) : fl_scope.
Notation "x / y" := (fdiv x y) : fl_scope.
Notation "- x" := (fneg x) : fl_scope.

(** The special functions on floats. *)
Class SpecialFunctionsF : Type := {
  FMAX : R;
  gammainc : npfloat -> npfloat -> npfloat;
  gammaincc : npfloat -> npfloat -> npfloat;
  gammaincln : npfloat -> npfloat -> npfloat;
  gammainccln : npfloat -> npfloat -> npfloat;
  gammaln : npfloat -> npfloat;
  gammaincinv : npfloat -> npfloat -> npfloat;
  gammainccinv : npfloat -> npfloat -> npfloat
}.

(** What a call does: it returns a value or raises. *)
Inductive exn : Type := ZeroDivisionError.

Inductive outcome (A : Type) : Type :=
| Returns (a : A)
| Raises (e : exn).
Arguments Returns {A} a.
Arguments Raises {A} e.

Definition bind {A B : Type} (c : outcome A) (k : A -> outcome B) : outcome B :=
  match c with
  | Returns a => k a
  | Raises e => Raises e
  end.

Notation "x <- c ;; k" := (bind c (fun x => k))
  (at level 61, c at next level, right associativity).

(** The run-time type of the scalars of a parameter vector: plain Python
    floats (a tuple or list of them) or numpy float64 (the elements of an
    array, which is what the fitting framework passes and stores). *)
Inductive kind : Type := PyFloat | NpFloat64.

(** [1 / d] where [d = lambda_ ** 2] has the kind of [lambda_]: between two
    Python numbers a zero divisor raises; numpy divides as [fdiv].  Every
    other operation of the class has a numpy operand. *)
Definition truediv_1 (k : kind) (d : npfloat) : outcome npfloat :=
  match k, d with
  | PyFloat, Fin r =>
      if Req_dec_T r 0 then Raises ZeroDivisionError
      else Returns (Fin 1 / d)%fl
  | _, _ => Returns (Fin 1 / d)%fl
  end.

Section Model.
Context {SF : SpecialFunctionsF}.
Open Scope fl_scope.

(** [numpy.clip(x, -inf, MAX)] *)
Definition clip_MAX (x : npfloat) : npfloat :=
  match x with
  | Fin r => Fin (Rmin r FMAX)
  | PInf => Fin FMAX
  | NInf => NInf
  | NaN => NaN
  end.

(** Modelled from the spec: [lifelines.utils.safe_exp.safe_exp], the bounded
    exponential, is not among the sources; the exponent is clamped from above
    before exponentiating, so that an infinite exponent gives a finite
    value. *)
Definition safe_exp (x : npfloat) : npfloat := fexp (clip_MAX x).

Definition _survival_function (k : kind) (params : npfloat * npfloat * npfloat)
    (times : npfloat) : outcome npfloat :=
  let '(mu_, ln_sigma_, lambda_) := params in
  let sigma_ := safe_exp ln_sigma_ in
  let Z := (flog times - mu_) / sigma_ in
  if fgt0 lambda_ then
    a <- truediv_1 k (fsqr lambda_) ;;
    Returns (gammaincc a (safe_exp (lambda_ * Z - Fin 2 * flog lambda_)))
  else
    a <- truediv_1 k (fsqr lambda_) ;;
    Returns (gammainc a (safe_exp (lambda_ * Z - Fin 2 * flog (- lambda_)))).

Definition _cumulative_hazard (k : kind) (params : npfloat * npfloat * npfloat)
    (times : npfloat) : outcome npfloat :=
  let '(mu_, ln_sigma_, lambda_) := params in
  let sigma_ := safe_exp ln_sigma_ in
  let Z := (flog times - mu_) / sigma_ in
  ilambda_2 <- truediv_1 k (fsqr lambda_) ;;
  if fgt0 lambda_ then
    Returns (- gammainccln ilambda_2 (safe_exp (lambda_ * Z - Fin 2 * flog lambda_)))
  else
    Returns (- gammaincln ilambda_2 (safe_exp (lambda_ * Z - Fin 2 * flog (- lambda_)))).

Definition _log_1m_sf (k : kind) (params : npfloat * npfloat * npfloat)
    (times : npfloat) : outcome npfloat :=
  let '(mu_, ln_sigma_, lambda_) := params in
  let sigma_ := safe_exp ln_sigma_ in
  let Z := (flog times - mu_) / sigma_ in
  if fgt0 lambda_ then
    a <- truediv_1 k (fsqr lambda_) ;;
    Returns (gammaincln a (safe_exp (lambda_ * Z - Fin 2 * flog lambda_)))
  else
    a <- truediv_1 k (fsqr lambda_) ;;
    Returns (gammainccln a (safe_exp (lambda_ * Z - Fin 2 * flog (- lambda_)))).

Definition _log_hazard (k : kind) (params : npfloat * npfloat * npfloat)
    (times : npfloat) : outcome npfloat :=
  let '(mu_, ln_sigma_, lambda_) := params in
  ilambda_2 <- truediv_1 k (fsqr lambda_) ;;
  let Z := (flog times - mu_) / safe_exp ln_sigma_ in
  if fgt0 lambda_ then
    Returns (
      flog lambda_
      - flog times
      - ln_sigma_
      - gammaln ilambda_2
      + (lambda_ * Z - safe_exp (lambda_ * Z) - Fin 2 * flog lambda_) * ilambda_2
      - gammainccln ilambda_2 (safe_exp (lambda_ * Z - Fin 2 * flog lambda_)))
  else
    Returns (
      flog (- lambda_)
      - flog times
      - ln_sigma_
      - gammaln ilambda_2
      + (lambda_ * Z - safe_exp (lambda_ * Z) - Fin 2 * flog (- lambda_)) * ilambda_2
      - gammaincln ilambda_2 (safe_exp (lambda_ * Z - Fin 2 * flog (- lambda_)))).

(** The fitted attributes, all of one kind. *)
Record GeneralizedGammaFitter : Type := {
  attr_kind : kind;
  mu_ : npfloat;
  ln_sigma_ : npfloat;
  lambda_ : npfloat
}.

Definition percentile (self : GeneralizedGammaFitter) (p : npfloat) : outcome npfloat :=
  let lambda_ := lambda_ self in
  let sigma_ := fexp (ln_sigma_ self) in
  if fgt0 lambda_ then
    a <- truediv_1 (attr_kind self) (fsqr lambda_) ;;
    Returns (fexp (sigma_ * flog (gammainccinv a p * fsqr lambda_) / lambda_)
             * fexp (mu_ self))
  else
    a <- truediv_1 (attr_kind self) (fsqr lambda_) ;;
    Returns (fexp (sigma_ * flog (gammaincinv a p * fsqr lambda_) / lambda_)
             * fexp (mu_ self)).

End Model.

End Float.

(** ** The class attributes *)

Definition _fitted_parameter_names : list string :=
  ["mu_"; "ln_sigma_"; "lambda_"]%string.

(** A bound is a pair (lower, upper); [None] is Python's [None], the absence
    of a bound on that side. *)
Definition _bounds : list (option R * option R) :=
  [(None, None); (None, None); (None, None)].

Definition _compare_to_values : list R := [0; 0; 1].

(** [mu_, ln_sigma_, lambda_ = params]: a vector of three components
    unpacks, any other length is an error. *)
Definition unpack (params : list R) : option (R * R * R) :=
  match params with
  | [mu_; ln_sigma_; lambda_] => Some (mu_, ln_sigma_, lambda_)
  | _ => None
  end.

(** What a bound allows. *)
Definition within_bound (b : option R * option R) (x : R) : Prop :=
  match fst b with Some lo => lo <= x | None => True end /\
  match snd b with Some hi => x <= hi | None => True end.

(** ** The initial point *)

(** Modelled from the spec: [lifelines.utils.CensoringType] is not among the
    sources.  It is the enumerated censoring tag, right, left or interval,
    that [CensoringType.is_right_censoring] and its siblings read on the
    instance. *)
Inductive CensoringType : Type := RIGHT | LEFT | INTERVAL.

(** One-dimensional numpy arrays as lists. *)
Definition np_log (a : list R) : list R := map ln a.

Definition np_sum (a : list R) : R := fold_right Rplus 0 a.

(** [a.mean()] *)
Definition np_mean (a : list R) : R := np_sum a / INR (length a).

(** [a.std()]: the population standard deviation (numpy's default,
    [ddof = 0]). *)
Definition np_std (a : list R) : R :=
  sqrt (np_mean (map (fun x => (x - np_mean a) ^ 2) a)).

(** [a - b] on arrays: elementwise on equal lengths, an array of length one
    is broadcast, any other pair of shapes is an error. *)
Definition np_subtract (a b : list R) : option (list R) :=
  if Nat.eqb (length a) (length b) then
    Some (map (fun xy => fst xy - snd xy) (combine a b))
  else if Nat.eqb (length b) 1 then
    Some (map (fun x => x - hd 0 b) a)
  else if Nat.eqb (length a) 1 then
    Some (map (fun y => hd 0 a - y) b)
  else None.

(** [_create_initial_point(self, Ts, E, *args)]: [Ts] is the pair
    [(Ts[0], Ts[1])], [E] is not read.  [None] is the shape error of the
    subtraction.  The three tests are exhaustive on [CensoringType]. *)
Definition _create_initial_point (self_censoring_type : CensoringType)
    (Ts : list R * list R) (E : list bool) : option (R * R * R) :=
  match
    match self_censoring_type with
    | RIGHT => Some (np_log (fst Ts))
    | LEFT => Some (np_log (snd Ts))
    | INTERVAL => option_map np_log (np_subtract (snd Ts) (fst Ts))
    end
  with
  | Some log_data => Some (np_mean log_data, ln (np_std log_data), 1 / 10)
  | None => None
  end.

(** ** Instances of the imported routines *)

(** The exponential family: the incomplete gamma functions at shape 1,
    [P(1, x) = 1 - exp(-x)] and [Q(1, x) = exp(-x)], taken at every shape.
    It satisfies every property of the incomplete gamma functions that the
    theorems below assume, and is the true function on the models with
    [lambda_ = 1] or [lambda_ = -1].  The bound 634 stands for the constant
    of [safe_exp]; no statement below depends on its value. *)
Definition exp_family : Exact.SpecialFunctions := {|
  Exact.MAX := 634;
  Exact.gammainc := fun _ x => 1 - exp (- x);
  Exact.gammaincc := fun _ x => exp (- x);
  Exact.gammaincln := fun _ x => ln (1 - exp (- x));
  Exact.gammainccln := fun _ x => - x;
  Exact.gammaln := fun _ => 0;
  Exact.gammaincinv := fun _ p => - ln (1 - p);
  Exact.gammainccinv := fun _ p => - ln p
|}.

(** A function of two reals on floats: itself on finite arguments, the given
    value at an infinite shape and a finite argument, [nan] elsewhere. *)
Definition on_floats (f : R -> R -> R) (at_inf_shape : Float.npfloat)
    (a x : Float.npfloat) : Float.npfloat :=
  match a, x with
  | Float.Fin a, Float.Fin x => Float.Fin (f a x)
  | Float.PInf, Float.Fin _ => at_inf_shape
  | _, _ => Float.NaN
  end.

(** Real special functions on floats.  At an infinite shape and a finite
    argument the lower incomplete gamma is 0 and the upper is 1, the values
    scipy returns (and the limits of the functions); their logarithms are
    given the limits as well, and the inverses [nan]. *)
Definition float_functions (SF : Exact.SpecialFunctions)
    : Float.SpecialFunctionsF := {|
  Float.FMAX := Exact.MAX;
  Float.gammainc := on_floats Exact.gammainc (Float.Fin 0);
  Float.gammaincc := on_floats Exact.gammaincc (Float.Fin 1);
  Float.gammaincln := on_floats Exact.gammaincln Float.NInf;
  Float.gammainccln := on_floats Exact.gammainccln (Float.Fin 0);
  Float.gammaln := fun a =>
    match a with
    | Float.Fin a => Float.Fin (Exact.gammaln a)
    | Float.PInf => Float.PInf
    | _ => Float.NaN
    end;
  Float.gammaincinv := on_floats Exact.gammaincinv Float.NaN;
  Float.gammainccinv := on_floats Exact.gammainccinv Float.NaN
|}.

(** ** Float64 reading: the range of the floats

    The float reading above keeps every finite result as it is.  Here a
    finite result is brought into the range of float64: a magnitude of
    [2^1024] or more overflows to an infinity, a magnitude below [2^-1075]
    underflows to zero.  Rounding inside the range is not represented.  The
    scalars are numpy float64, as the elements of a parameter array are, so
    that no operation raises. *)

Module Float64.
Import Float.

(** Below [ETA] a magnitude rounds to zero; from [OMEGA] on it overflows. *)
Definition ETA : R := Rpower 2 (- 1075).
Definition OMEGA : R := Rpower 2 1024.

Definition rnd (r : R) : npfloat :=
  if Rle_dec OMEGA (Rabs r) then (if Rgt_dec r 0 then PInf else NInf)
  else if Rlt_dec (Rabs r) ETA then Fin 0
  else Fin r.

Definition renorm (v : npfloat) : npfloat :=
  match v with
  | Fin r => rnd r
  | _ => v
  end.

Definition add (x y : npfloat) : npfloat := renorm (fadd x y).
Definition sub (x y : npfloat) : npfloat := renorm (fsub x y).
Definition mul (x y : npfloat) : npfloat := renorm (fmul x y).
Definition div (x y : npfloat) : npfloat := renorm (fdiv x y).
Definition sqr (x : npfloat) : npfloat := renorm (fsqr x).
Definition log (x : npfloat) : npfloat := renorm (flog x).
Definition exp (x : npfloat) : npfloat := renorm (fexp x).

(** A real lies in the range when it is zero or its magnitude is neither
    rounded to zero nor overflowing. *)
Definition in_range (r : R) : Prop :=
  r = 0 \/ (ETA <= Rabs r /\ Rabs r < OMEGA).

Section Model.
Context {SF : SpecialFunctionsF}.

(** Modelled from the spec: [lifelines.utils.safe_exp.safe_exp], the bounded
    exponential, is not among the sources; the exponent is clamped from above
    before exponentiating. *)
Definition safe_exp (x : npfloat) : npfloat := exp (clip_MAX x).

(** The operations are written by name: [sub a b] is [a - b], [mul a b] is
    [a * b], [div a b] is [a / b], [sqr a] is [a ** 2], [fneg a] is [-a]. *)
Definition _survival_function (params : npfloat * npfloat * npfloat)
    (times : npfloat) : npfloat :=
  let '(mu_, ln_sigma_, lambda_) := params in
  let sigma_ := safe_exp ln_sigma_ in
  let Z := div (sub (log times) mu_) sigma_ in
  if fgt0 lambda_ then
    gammaincc (div (Fin 1) (sqr lambda_))
      (safe_exp (sub (mul lambda_ Z) (mul (Fin 2) (log lambda_))))
  else
    gammainc (div (Fin 1) (sqr lambda_))
      (safe_exp (sub (mul lambda_ Z) (mul (Fin 2) (log (fneg lambda_))))).

Definition _log_1m_sf (params : npfloat * npfloat * npfloat)
    (times : npfloat) : npfloat :=
  let '(mu_, ln_sigma_, lambda_) := params in
  let sigma_ := safe_exp ln_sigma_ in
  let Z := div (sub (log times) mu_) sigma_ in
  if fgt0 lambda_ then
    gammaincln (div (Fin 1) (sqr lambda_))
      (safe_exp (sub (mul lambda_ Z) (mul (Fin 2) (log lambda_))))
  else
    gammainccln (div (Fin 1) (sqr lambda_))
      (safe_exp (sub (mul lambda_ Z) (mul (Fin 2) (log (fneg lambda_))))).

(** The fitted attributes. *)
Record GeneralizedGammaFitter : Type := {
  mu_ : npfloat;
  ln_sigma_ : npfloat;
  lambda_ : npfloat
}.

Definition fitted_params (self : GeneralizedGammaFitter)
    : npfloat * npfloat * npfloat :=
  (mu_ self, ln_sigma_ self, lambda_ self).

Definition percentile (self : GeneralizedGammaFitter) (p : npfloat) : npfloat :=
  let lambda_ := lambda_ self in
  let sigma_ := exp (ln_sigma_ self) in
  if fgt0 lambda_ then
    mul (exp (div (mul sigma_
                     (log (mul (gammainccinv (div (Fin 1) (sqr lambda_)) p)
                               (sqr lambda_))))
                  lambda_))
        (exp (mu_ self))
  else
    mul (exp (div (mul sigma_
                     (log (mul (gammaincinv (div (Fin 1) (sqr lambda_)) p)
                               (sqr lambda_))))
                  lambda_))
        (exp (mu_ self)).

End Model.

End Float64.

(** Real special functions as float64 routines: the value of the real
    function brought into the range of the floats, so that a tail too small
    for a float is returned as 0; at an infinite shape and elsewhere as in
    [float_functions]. *)
Definition float64_functions (SF : Exact.SpecialFunctions)
    : Float.SpecialFunctionsF := {|
  Float.FMAX := Exact.MAX;
  Float.gammainc := fun a x => Float64.renorm (Float.gammainc (SpecialFunctionsF := float_functions SF) a x);
  Float.gammaincc := fun a x => Float64.renorm (Float.gammaincc (SpecialFunctionsF := float_functions SF) a x);
  Float.gammaincln := fun a x => Float64.renorm (Float.gammaincln (SpecialFunctionsF := float_functions SF) a x);
  Float.gammainccln := fun a x => Float64.renorm (Float.gammainccln (SpecialFunctionsF := float_functions SF) a x);
  Float.gammaln := fun a => Float64.renorm (Float.gammaln (SpecialFunctionsF := float_functions SF) a);
  Float.gammaincinv := fun a p => Float64.renorm (Float.gammaincinv (SpecialFunctionsF := float_functions SF) a p);
  Float.gammainccinv := fun a p => Float64.renorm (Float.gammainccinv (SpecialFunctionsF := float_functions SF) a p)
|}.

(** The real values of the intermediate results of an evaluator, in the
    order computed: [sigma_], [log(times)], [log(times) - mu_], [Z],
    [lambda_ * Z], [log|lambda_|], twice that, the exponent, its bounded
    exponential, [lambda_ ** 2] and [1 / lambda_ ** 2]. *)
Definition intermediates {SF : Exact.SpecialFunctions} (mu ls lambda t : R)
    : list R :=
  let s := exp (Rmin ls Exact.MAX) in
  let l := ln t in
  let d := l - mu in
  let Z := d / s in
  let ll := ln (Rabs lambda) in
  let e := lambda * Z - 2 * ll in
  [s; l; d; Z; lambda * Z; ll; 2 * ll; e; exp (Rmin e Exact.MAX);
   lambda ^ 2; 1 / lambda ^ 2].

(** The real values of the intermediate results of [percentile], in the
    order computed: [sigma_], [lambda_ ** 2], [1 / lambda_ ** 2], the inverse
    incomplete gamma, its product with [lambda_ ** 2], the logarithm, the
    product with [sigma_], the quotient by [lambda_], its exponential,
    [exp(mu_)] and the result. *)
Definition percentile_intermediates {SF : Exact.SpecialFunctions}
    (mu ls lambda p : R) : list R :=
  let k := 1 / lambda ^ 2 in
  let g := if Rgt_dec lambda 0 then Exact.gammainccinv k p
           else Exact.gammaincinv k p in
  let a := exp ls * ln (g * lambda ^ 2) / lambda in
  [exp ls; lambda ^ 2; k; g; g * lambda ^ 2; ln (g * lambda ^ 2);
   exp ls * ln (g * lambda ^ 2); a; exp a; exp mu; exp a * exp mu].

(** Equality of floats, [==]: a [nan] equals nothing, itself included. *)
Definition float_equal (x y : Float.npfloat) : Prop :=
  x = y /\ x <> Float.NaN.

(** A fitter whose fitted attributes are the floats of the given values. *)
Definition float64_fitter (self : Exact.GeneralizedGammaFitter)
    : Float64.GeneralizedGammaFitter :=
  {| Float64.mu_ := Float.Fin (Exact.mu_ self);
     Float64.ln_sigma_ := Float.Fin (Exact.ln_sigma_ self);
     Float64.lambda_ := Float.Fin (Exact.lambda_ self) |}.

(* ================================================================= *)
(** * Part II: properties *)
(* ================================================================= *)

(** ** Real-number facts used below *)

Lemma shape_pos (lambda : R) : lambda <> 0 -> 0 < 1 / lambda ^ 2.
Proof.
  intro Hl. apply Rdiv_lt_0_compat; [lra|].
  destruct (Rdichotomy _ _ Hl); nra.
Qed.

Lemma ln_sqr_pos (lambda : R) : 0 < lambda -> ln (lambda ^ 2) = 2 * ln lambda.
Proof.
  intro Hl. replace (lambda ^ 2) with (lambda * lambda) by ring.
  rewrite ln_mult by assumption. ring.
Qed.

Lemma ln_sqr_neg (lambda : R) : lambda < 0 -> ln (lambda ^ 2) = 2 * ln (- lambda).
Proof.
  intro Hl. replace (lambda ^ 2) with ((- lambda) ^ 2) by ring.
  apply ln_sqr_pos. lra.
Qed.

Lemma exp_le (x y : R) : x <= y -> exp x <= exp y.
Proof.
  intros [Hlt | Heq]; [left; apply exp_increasing; assumption | subst; right; reflexivity].
Qed.

Lemma ln_le_pos (x y : R) : 0 < x -> x <= y -> ln x <= ln y.
Proof.
  intros Hx [Hlt | Heq]; [left; apply ln_increasing; assumption | subst; right; reflexivity].
Qed.

Lemma exp_1_gt_2 : 2 < exp 1.
Proof. generalize (exp_ineq1 1). lra. Qed.

Lemma exp_66_gt : 65536 < exp 66.
Proof.
  pose proof exp_1_gt_2 as H1.
  assert (H2 : 4 < exp 2).
  { replace (exp 2) with (exp (1 + 1)) by (f_equal; ring). rewrite exp_plus. nra. }
  assert (H4 : 16 < exp 4).
  { replace (exp 4) with (exp (2 + 2)) by (f_equal; ring). rewrite exp_plus. nra. }
  assert (H8 : 256 < exp 8).
  { replace (exp 8) with (exp (4 + 4)) by (f_equal; ring). rewrite exp_plus. nra. }
  assert (H16 : 65536 < exp 16).
  { replace (exp 16) with (exp (8 + 8)) by (f_equal; ring). rewrite exp_plus. nra. }
  apply Rlt_trans with (exp 16); [assumption | apply exp_increasing; lra].
Qed.

Lemma ln_2_lt_1 : ln 2 < 1.
Proof.
  apply Rlt_le_trans with (ln (exp 1)).
  - apply ln_increasing; [lra | apply exp_1_gt_2].
  - rewrite ln_exp. lra.
Qed.

Lemma ln_2_pos : 0 < ln 2.
Proof. rewrite <- ln_1. apply ln_increasing; lra. Qed.

(** ** The exact reading *)

Section ExactFacts.
Import Exact.
Context {SF : SpecialFunctions}.

Lemma safe_exp_pos (x : R) : 0 < safe_exp x.
Proof. apply exp_pos. Qed.

Lemma safe_exp_le (x y : R) : x <= y -> safe_exp x <= safe_exp y.
Proof.
  intro H. apply exp_le. apply Rle_min_compat_r. assumption.
Qed.

Lemma safe_exp_below (x : R) : x <= MAX -> safe_exp x = exp x.
Proof. intro H. unfold safe_exp. rewrite Rmin_left by assumption. reflexivity. Qed.

Lemma safe_exp_above (x : R) : MAX <= x -> safe_exp x = exp MAX.
Proof. intro H. unfold safe_exp. rewrite Rmin_right by assumption. reflexivity. Qed.

(** *** What is assumed of the incomplete gamma functions

    Each is a property of the regularized incomplete gamma functions
    [P(a, x)] (lower) and [Q(a, x)] (upper) at a shape [a > 0] and an
    argument [x > 0], which is where the evaluators call them when
    [lambda_ <> 0]. *)

(** The two tails sum to 1. *)
Hypothesis tails_sum : forall a x, 0 < a -> 0 < x ->
  gammainc a x + gammaincc a x = 1.

(** Both tails are positive. *)
Hypothesis lower_pos : forall a x, 0 < a -> 0 < x -> 0 < gammainc a x.
Hypothesis upper_pos : forall a x, 0 < a -> 0 < x -> 0 < gammaincc a x.

(** The lower tail grows with its argument. *)
Hypothesis lower_mono : forall a x y, 0 < a -> 0 < x -> x <= y ->
  gammainc a x <= gammainc a y.

(** The logarithmic variants are the logarithms. *)
Hypothesis gammaincln_log : forall a x, 0 < a -> 0 < x ->
  gammaincln a x = ln (gammainc a x).
Hypothesis gammainccln_log : forall a x, 0 < a -> 0 < x ->
  gammainccln a x = ln (gammaincc a x).

(** C1: for every parameter vector with [lambda <> 0] and every time
    [t > 0], the cumulative hazard is minus the logarithm of the survival
    function, on the branch [lambda > 0] and on the branch [lambda < 0]. *)
Theorem cumulative_hazard_neg_log_survival (mu ln_sigma lambda t : R) :
  lambda <> 0 -> 0 < t ->
  _cumulative_hazard (mu, ln_sigma, lambda) t
  = - ln (_survival_function (mu, ln_sigma, lambda) t).
Proof.
  intros Hl Ht. unfold _cumulative_hazard, _survival_function.
  destruct (Rgt_dec lambda 0).
  - rewrite gammainccln_log; [reflexivity | apply shape_pos; assumption | apply safe_exp_pos].
  - rewrite gammaincln_log; [reflexivity | apply shape_pos; assumption | apply safe_exp_pos].
Qed.

(** Over the reals, for [lambda <> 0] and [t > 0], the exponential of
    [_log_1m_sf] is one minus the survival function: [_log_1m_sf] takes the
    tail opposite to the one of [_survival_function]. *)
Lemma exp_log_1m_sf_complement (mu ln_sigma lambda t : R) :
  lambda <> 0 -> 0 < t ->
  exp (_log_1m_sf (mu, ln_sigma, lambda) t)
  = 1 - _survival_function (mu, ln_sigma, lambda) t.
Proof.
  intros Hl Ht. unfold _log_1m_sf, _survival_function.
  pose proof (shape_pos lambda Hl) as Hk.
  destruct (Rgt_dec lambda 0).
  - set (x := safe_exp (_ - _)).
    assert (Hx : 0 < x) by apply safe_exp_pos.
    rewrite gammaincln_log by assumption.
    rewrite exp_ln by (apply lower_pos; assumption).
    generalize (tails_sum _ _ Hk Hx). lra.
  - set (x := safe_exp (_ - _)).
    assert (Hx : 0 < x) by apply safe_exp_pos.
    rewrite gammainccln_log by assumption.
    rewrite exp_ln by (apply upper_pos; assumption).
    generalize (tails_sum _ _ Hk Hx). lra.
Qed.

Lemma survival_in_unit (mu ls lambda t : R) :
  lambda <> 0 -> 0 <= _survival_function (mu, ls, lambda) t <= 1.
Proof.
  intros Hl. unfold _survival_function.
  pose proof (shape_pos lambda Hl) as Hk.
  destruct (Rgt_dec lambda 0); set (x := safe_exp (_ - _));
    assert (Hx : 0 < x) by apply safe_exp_pos;
    generalize (tails_sum _ _ Hk Hx) (lower_pos _ _ Hk Hx) (upper_pos _ _ Hk Hx); lra.
Qed.

Lemma survival_nonincreasing (mu ls lambda t1 t2 : R) :
  lambda <> 0 -> 0 < t1 -> t1 <= t2 ->
  _survival_function (mu, ls, lambda) t2 <= _survival_function (mu, ls, lambda) t1.
Proof.
  intros Hl Ht1 Ht. unfold _survival_function.
  pose proof (shape_pos lambda Hl) as Hk.
  pose proof (safe_exp_pos ls) as Hs.
  assert (HZ : (ln t1 - mu) / safe_exp ls <= (ln t2 - mu) / safe_exp ls).
  { apply Rmult_le_compat_r; [left; apply Rinv_0_lt_compat; assumption|].
    generalize (ln_le_pos _ _ Ht1 Ht). lra. }
  destruct (Rgt_dec lambda 0) as [Hpos | Hneg].
  - set (x1 := safe_exp (lambda * ((ln t1 - mu) / _) - _)).
    set (x2 := safe_exp (lambda * ((ln t2 - mu) / _) - _)).
    assert (Hx : x1 <= x2).
    { apply safe_exp_le. apply Rplus_le_compat_r.
      apply Rmult_le_compat_l; [lra | assumption]. }
    assert (Hx1 : 0 < x1) by apply safe_exp_pos.
    assert (Hx2 : 0 < x2) by apply safe_exp_pos.
    generalize (tails_sum _ _ Hk Hx1) (tails_sum _ _ Hk Hx2)
               (lower_mono _ _ _ Hk Hx1 Hx). lra.
  - set (x1 := safe_exp (lambda * ((ln t1 - mu) / _) - _)).
    set (x2 := safe_exp (lambda * ((ln t2 - mu) / _) - _)).
    assert (Hx : x2 <= x1).
    { apply safe_exp_le. apply Rplus_le_compat_r.
      apply Rmult_le_compat_neg_l; [lra | assumption]. }
    apply lower_mono; [assumption | apply safe_exp_pos | assumption].
Qed.


(** The shape-one upper tail is the exponential survival. *)
Hypothesis upper_shape_one : forall x, 0 < x -> gammaincc 1 x = exp (- x).

(** At the reference vector the argument of the upper tail is the time,
    capped at [exp(MAX)]: beyond the cap the survival function is constant,
    whatever the bound [MAX >= 0]. *)
Lemma survival_at_reference_capped (t : R) :
  0 <= MAX -> 0 < t ->
  _survival_function (0, 0, 1) t = exp (- Rmin t (exp MAX)).
Proof.
  intros HM Ht. unfold _survival_function.
  destruct (Rgt_dec 1 0); [|lra].
  rewrite (safe_exp_below 0 HM), exp_0, ln_1.
  replace (1 / 1 ^ 2) with 1 by field.
  replace (1 * ((ln t - 0) / 1) - 2 * 0) with (ln t) by field.
  rewrite upper_shape_one by apply safe_exp_pos. f_equal. f_equal.
  destruct (Rle_dec (ln t) MAX) as [Hle | Hgt].
  - rewrite (safe_exp_below _ Hle), (exp_ln t Ht), Rmin_left; [reflexivity |].
    rewrite <- (exp_ln t Ht) at 1. apply exp_le; assumption.
  - rewrite safe_exp_above by lra. rewrite Rmin_right; [reflexivity |].
    rewrite <- (exp_ln t Ht). apply exp_le; lra.
Qed.

(** The inverses invert, and return a positive argument. *)
Hypothesis lower_inverse : forall a p, 0 < a -> 0 < p < 1 ->
  0 < gammaincinv a p /\ gammainc a (gammaincinv a p) = p.
Hypothesis upper_inverse : forall a p, 0 < a -> 0 < p < 1 ->
  0 < gammainccinv a p /\ gammaincc a (gammainccinv a p) = p.

Lemma survival_at_percentile (mu ls lambda g : R) :
  lambda <> 0 -> 0 < g -> ls <= MAX -> g <= exp MAX ->
  let t := exp (exp ls * ln (g * lambda ^ 2) / lambda) * exp mu in
  safe_exp (lambda * ((ln t - mu) / safe_exp ls) - ln (lambda ^ 2)) = g.
Proof.
  intros Hl Hg Hs Hle t. subst t.
  rewrite ln_mult by apply exp_pos. rewrite !ln_exp.
  rewrite (safe_exp_below ls Hs).
  assert (Hl2 : 0 < lambda ^ 2) by (destruct (Rdichotomy _ _ Hl); nra).
  pose proof (exp_pos ls) as He.
  replace (lambda * ((exp ls * ln (g * lambda ^ 2) / lambda + mu - mu) / exp ls)
           - ln (lambda ^ 2))
    with (ln (g * lambda ^ 2) - ln (lambda ^ 2)) by (field; split; lra).
  rewrite ln_mult by assumption.
  replace (ln g + ln (lambda ^ 2) - ln (lambda ^ 2)) with (ln g) by ring.
  rewrite safe_exp_below.
  - apply exp_ln; assumption.
  - rewrite <- (ln_exp MAX). apply ln_le_pos; assumption.
Qed.

(** Over the reals, for [lambda <> 0] and [p] strictly between 0 and 1, the
    survival function at [percentile(p)] is [p], provided [ln_sigma] does
    not exceed the bound [MAX] of the bounded exponential and the inverse
    incomplete gamma value does not exceed [exp(MAX)]. *)
Lemma survival_at_percentile_is_p (self : GeneralizedGammaFitter) (p : R) :
  lambda_ self <> 0 -> 0 < p < 1 ->
  ln_sigma_ self <= MAX ->
  (lambda_ self > 0 -> gammainccinv (1 / lambda_ self ^ 2) p <= exp MAX) ->
  (lambda_ self < 0 -> gammaincinv (1 / lambda_ self ^ 2) p <= exp MAX) ->
  _survival_function (fitted_params self) (percentile self p) = p.
Proof.
  destruct self as [mu ls lambda]; cbn [lambda_ ln_sigma_ mu_ fitted_params].
  intros Hl Hp Hs Hup Hlo.
  pose proof (shape_pos lambda Hl) as Hk.
  unfold _survival_function, percentile, fitted_params; cbn [lambda_ ln_sigma_ mu_].
  destruct (Rgt_dec lambda 0) as [Hpos | Hneg].
  - destruct (upper_inverse _ _ Hk Hp) as [Hg Hinv].
    rewrite <- ln_sqr_pos by lra.
    rewrite survival_at_percentile; auto.
  - assert (Hlt : lambda < 0) by lra.
    destruct (lower_inverse _ _ Hk Hp) as [Hg Hinv].
    rewrite <- ln_sqr_neg by lra.
    rewrite survival_at_percentile; auto.
Qed.

End ExactFacts.

(** ** The exponential family satisfies what is assumed *)

Section ExpFamily.
Import Exact.
Local Existing Instance exp_family.

Lemma exp_family_tails_sum (a x : R) :
  0 < a -> 0 < x -> gammainc a x + gammaincc a x = 1.
Proof. intros _ _. cbn. ring. Qed.

Lemma exp_family_lower_pos (a x : R) : 0 < a -> 0 < x -> 0 < gammainc a x.
Proof.
  intros _ Hx. cbn.
  assert (exp (- x) < 1) by (rewrite <- exp_0; apply exp_increasing; lra).
  lra.
Qed.

Lemma exp_family_upper_pos (a x : R) : 0 < a -> 0 < x -> 0 < gammaincc a x.
Proof. intros _ _. cbn. apply exp_pos. Qed.

Lemma exp_family_lower_mono (a x y : R) :
  0 < a -> 0 < x -> x <= y -> gammainc a x <= gammainc a y.
Proof.
  intros _ _ Hxy. cbn.
  assert (exp (- y) <= exp (- x)) by (apply exp_le; lra).
  lra.
Qed.

Lemma exp_family_gammaincln_log (a x : R) :
  0 < a -> 0 < x -> gammaincln a x = ln (gammainc a x).
Proof. reflexivity. Qed.

Lemma exp_family_gammainccln_log (a x : R) :
  0 < a -> 0 < x -> gammainccln a x = ln (gammaincc a x).
Proof. intros _ _. cbn. rewrite ln_exp. reflexivity. Qed.

Lemma exp_family_upper_shape_one (x : R) : 0 < x -> gammaincc 1 x = exp (- x).
Proof. reflexivity. Qed.

Lemma exp_family_lower_inverse (a p : R) :
  0 < a -> 0 < p < 1 ->
  0 < gammaincinv a p /\ gammainc a (gammaincinv a p) = p.
Proof.
  intros _ [Hp0 Hp1]. cbn.
  assert (ln (1 - p) < 0) by (rewrite <- ln_1; apply ln_increasing; lra).
  split; [lra|].
  rewrite Ropp_involutive, exp_ln by lra. ring.
Qed.

Lemma exp_family_upper_inverse (a p : R) :
  0 < a -> 0 < p < 1 ->
  0 < gammainccinv a p /\ gammaincc a (gammainccinv a p) = p.
Proof.
  intros _ [Hp0 Hp1]. cbn.
  assert (ln p < 0) by (rewrite <- ln_1; apply ln_increasing; lra).
  split; [lra|].
  rewrite Ropp_involutive, exp_ln by lra. reflexivity.
Qed.

Lemma exp_family_MAX : MAX = 634.
Proof. reflexivity. Qed.

End ExpFamily.

(** ** The exact reading at concrete inputs *)

Section ExactInstances.
Local Existing Instance exp_family.
Import Exact.

(** C1 at [params = (0, 0, 1)], [t = 1], in the exponential family. *)
Lemma cumulative_hazard_neg_log_survival_witness :
  1 <> 0 /\ 0 < 1 /\
  _cumulative_hazard (0, 0, 1) 1 = - ln (_survival_function (0, 0, 1) 1).
Proof.
  assert (H1 : 1 <> 0) by lra.
  assert (H2 : 0 < 1) by lra.
  split; [exact H1 | split; [exact H2 |]].
  exact (cumulative_hazard_neg_log_survival
           exp_family_gammaincln_log exp_family_gammainccln_log
           0 0 1 1 H1 H2).
Defined.



End ExactInstances.

(** ** The float reading *)

Section FloatFacts.
Import Float.
Context {SF : SpecialFunctionsF}.
Open Scope fl_scope.

Lemma fdiv_fin (a b : R) : b <> 0%R -> Fin a / Fin b = Fin (a / b).
Proof. intro Hb. unfold fdiv. destruct (Req_dec_T b 0); [contradiction | reflexivity]. Qed.

Lemma flog_fin (r : R) : (0 < r)%R -> flog (Fin r) = Fin (ln r).
Proof. intro Hr. unfold flog. destruct (Rgt_dec r 0); [reflexivity | lra]. Qed.

Lemma flog_zero : flog (Fin 0) = NInf.
Proof.
  unfold flog. destruct (Rgt_dec 0 0); [lra|].
  destruct (Req_dec_T 0 0); [reflexivity | lra].
Qed.

Lemma fgt0_pos (r : R) : (r > 0)%R -> fgt0 (Fin r) = true.
Proof. intro Hr. unfold fgt0. destruct (Rgt_dec r 0); [reflexivity | lra]. Qed.

Lemma fgt0_nonpos (r : R) : (r <= 0)%R -> fgt0 (Fin r) = false.
Proof. intro Hr. unfold fgt0. destruct (Rgt_dec r 0); [lra | reflexivity]. Qed.

Lemma inf_times_pos (s : npfloat) (r : R) : (0 < r)%R -> inf_times s r = s.
Proof.
  intro Hr. unfold inf_times.
  destruct (Req_dec_T r 0); [lra|]. destruct (Rgt_dec r 0); [reflexivity | lra].
Qed.

Lemma inf_times_zero (s : npfloat) : inf_times s 0 = NaN.
Proof. unfold inf_times. destruct (Req_dec_T 0 0); [reflexivity | lra]. Qed.

(** [1 / 0.0 ** 2]: [inf] for numpy, an exception for Python floats. *)
Lemma truediv_1_zero_sqr_numpy : truediv_1 NpFloat64 (fsqr (Fin 0)) = Returns PInf.
Proof.
  unfold truediv_1, fsqr, fdiv.
  destruct (Req_dec_T (0 ^ 2) 0) as [_ | H]; [| exfalso; apply H; ring].
  destruct (Req_dec_T 1 0); [lra|]. destruct (Rgt_dec 1 0); [reflexivity | lra].
Qed.

Lemma truediv_1_zero_sqr_python :
  truediv_1 PyFloat (fsqr (Fin 0)) = Raises ZeroDivisionError.
Proof.
  unfold truediv_1, fsqr.
  destruct (Req_dec_T (0 ^ 2) 0) as [_ | H]; [reflexivity | exfalso; apply H; ring].
Qed.

Lemma safe_exp_fin (x : R) : safe_exp (Fin x) = Fin (exp (Rmin x FMAX)).
Proof. reflexivity. Qed.

Lemma safe_exp_inf : safe_exp PInf = Fin (exp FMAX).
Proof. reflexivity. Qed.

(** [Z] is finite at finite parameters and a positive finite time. *)
Lemma Z_finite (mu ls t : R) :
  (0 < t)%R ->
  (flog (Fin t) - Fin mu) / safe_exp (Fin ls)
  = Fin ((ln t - mu) / exp (Rmin ls FMAX)).
Proof.
  intro Ht. rewrite (flog_fin t Ht), safe_exp_fin. cbn [fsub fneg fadd].
  rewrite fdiv_fin by (apply Rgt_not_eq, exp_pos). reflexivity.
Qed.

(** At [lambda_ = 0] the exponent [lambda_ * Z - 2 * log(-lambda_)] is
    [inf], and the bounded exponential of it is [exp(MAX)]. *)
Lemma exponent_at_lambda_zero (z : R) :
  safe_exp (Fin 0 * Fin z - Fin 2 * flog (- Fin 0)) = Fin (exp FMAX).
Proof.
  cbn [fneg]. replace (- 0)%R with 0%R by ring. rewrite flog_zero.
  cbn [fmul]. rewrite inf_times_pos by lra. reflexivity.
Qed.

Lemma survival_at_lambda_zero (mu ls t : R) :
  (0 < t)%R ->
  _survival_function NpFloat64 (Fin mu, Fin ls, Fin 0) (Fin t)
  = Returns (gammainc PInf (Fin (exp FMAX))).
Proof.
  intro Ht. unfold _survival_function.
  rewrite fgt0_nonpos by lra. rewrite truediv_1_zero_sqr_numpy. cbn [bind].
  rewrite (Z_finite mu ls t Ht), exponent_at_lambda_zero. reflexivity.
Qed.

Lemma cumulative_hazard_at_lambda_zero (mu ls t : R) :
  (0 < t)%R ->
  _cumulative_hazard NpFloat64 (Fin mu, Fin ls, Fin 0) (Fin t)
  = Returns (- gammaincln PInf (Fin (exp FMAX))).
Proof.
  intro Ht. unfold _cumulative_hazard.
  rewrite truediv_1_zero_sqr_numpy. cbn [bind]. rewrite fgt0_nonpos by lra.
  rewrite (Z_finite mu ls t Ht), exponent_at_lambda_zero. reflexivity.
Qed.

Lemma log_1m_sf_at_lambda_zero (mu ls t : R) :
  (0 < t)%R ->
  _log_1m_sf NpFloat64 (Fin mu, Fin ls, Fin 0) (Fin t)
  = Returns (gammainccln PInf (Fin (exp FMAX))).
Proof.
  intro Ht. unfold _log_1m_sf.
  rewrite fgt0_nonpos by lra. rewrite truediv_1_zero_sqr_numpy. cbn [bind].
  rewrite (Z_finite mu ls t Ht), exponent_at_lambda_zero. reflexivity.
Qed.

(** Whatever [gammaln] and [gammaincln] return at the infinite shape, the sum
    contains [-inf + inf]. *)
Lemma log_hazard_at_lambda_zero (mu ls t : R) :
  (0 < t)%R ->
  _log_hazard NpFloat64 (Fin mu, Fin ls, Fin 0) (Fin t) = Returns NaN.
Proof.
  intro Ht. unfold _log_hazard.
  rewrite truediv_1_zero_sqr_numpy. cbn [bind]. rewrite fgt0_nonpos by lra.
  rewrite (Z_finite mu ls t Ht), exponent_at_lambda_zero.
  rewrite (flog_fin t Ht).
  cbn [fneg]. replace (- 0)%R with 0%R by ring. rewrite flog_zero.
  cbn [fmul]. rewrite safe_exp_fin, !inf_times_pos by lra.
  destruct (gammaln PInf), (gammaincln PInf (Fin (exp FMAX))); reflexivity.
Qed.

(** The dispatch boundary: a finite [lambda_ <= 0], zero included, takes the
    [else] branch of the survival function, whatever the kind. *)
Lemma survival_dispatch_nonpos (k : kind) (mu ls t : npfloat) (lambda : R) :
  (lambda <= 0)%R ->
  _survival_function k (mu, ls, Fin lambda) t
  = (a <- truediv_1 k (fsqr (Fin lambda)) ;;
     Returns (gammainc a
                (safe_exp (Fin lambda * ((flog t - mu) / safe_exp ls)
                           - Fin 2 * flog (- Fin lambda))))).
Proof.
  intro Hl. unfold _survival_function. rewrite fgt0_nonpos by assumption.
  reflexivity.
Qed.

(** In a Python-float parameter vector the division raises instead. *)
Lemma evaluators_at_lambda_zero_python (mu ls t : npfloat) :
  _survival_function PyFloat (mu, ls, Fin 0) t = Raises ZeroDivisionError /\
  _cumulative_hazard PyFloat (mu, ls, Fin 0) t = Raises ZeroDivisionError /\
  _log_1m_sf PyFloat (mu, ls, Fin 0) t = Raises ZeroDivisionError /\
  _log_hazard PyFloat (mu, ls, Fin 0) t = Raises ZeroDivisionError.
Proof.
  unfold _survival_function, _cumulative_hazard, _log_1m_sf, _log_hazard.
  rewrite fgt0_nonpos by lra. rewrite truediv_1_zero_sqr_python.
  repeat split; reflexivity.
Qed.


(** [percentile] with numpy attributes and [lambda_ = 0]: no exception; the
    value is [0] when the inverse returns a finite value at the infinite
    shape, and [nan] otherwise. *)
Lemma percentile_at_lambda_zero_numpy (mu ls : R) (p : npfloat) :
  percentile {| attr_kind := NpFloat64; mu_ := Fin mu; ln_sigma_ := Fin ls;
                lambda_ := Fin 0 |} p
  = Returns (if is_finite (gammaincinv PInf p) then Fin 0 else NaN).
Proof.
  unfold percentile; cbn [attr_kind mu_ ln_sigma_ lambda_].
  rewrite fgt0_nonpos by lra. rewrite truediv_1_zero_sqr_numpy. cbn [bind].
  destruct (gammaincinv PInf p) as [g | | |]; cbn [is_finite fsqr fmul fexp].
  - replace (g * 0 ^ 2)%R with 0%R by ring. rewrite flog_zero.
    cbn [fmul]. rewrite inf_times_pos by apply exp_pos.
    cbn [fdiv]. destruct (Rlt_dec 0 0); [lra|]. cbn [fexp fmul].
    do 2 f_equal. ring.
  - replace (0 ^ 2)%R with 0%R by ring. rewrite inf_times_zero. reflexivity.
  - replace (0 ^ 2)%R with 0%R by ring. rewrite inf_times_zero. reflexivity.
  - reflexivity.
Qed.

(** [percentile] with Python-float attributes and [lambda_ = 0]:
    [1 / lambda_ ** 2] raises. *)
Lemma percentile_at_lambda_zero_python (mu ls p : npfloat) :
  percentile {| attr_kind := PyFloat; mu_ := mu; ln_sigma_ := ls;
                lambda_ := Fin 0 |} p
  = Raises ZeroDivisionError.
Proof.
  unfold percentile; cbn [attr_kind mu_ ln_sigma_ lambda_].
  rewrite fgt0_nonpos by lra. rewrite truediv_1_zero_sqr_python. reflexivity.
Qed.

(** C7, amended: [percentile] with [lambda_] exactly zero raises
    [ZeroDivisionError] when the fitted attributes are plain Python floats;
    when they are numpy float64, which is what a fitted parameter array
    holds, it raises nothing and returns [nan] or [0]. *)
Theorem percentile_at_lambda_zero (self : GeneralizedGammaFitter)
    (p : npfloat) (mu ls : R) :
  lambda_ self = Fin 0 -> mu_ self = Fin mu -> ln_sigma_ self = Fin ls ->
  match attr_kind self with
  | PyFloat => percentile self p = Raises ZeroDivisionError
  | NpFloat64 =>
      percentile self p = Returns NaN \/ percentile self p = Returns (Fin 0)
  end.
Proof.
  destruct self as [k m s l]; cbn [attr_kind mu_ ln_sigma_ lambda_].
  intros -> -> ->. destruct k.
  - apply percentile_at_lambda_zero_python.
  - rewrite percentile_at_lambda_zero_numpy.
    destruct (is_finite (gammaincinv PInf p)); [right | left]; reflexivity.
Qed.

End FloatFacts.

(** ** A square is zero only at zero *)

Lemma sqr_nonzero (lambda : R) : lambda <> 0 -> lambda ^ 2 <> 0.
Proof. intro Hl. destruct (Rdichotomy _ _ Hl); nra. Qed.

(** ** The float reading at concrete inputs *)

Section FloatInstances.
Local Existing Instance exp_family.
Local Existing Instance float_functions.
Import Float.



(** C7 fails on numpy attributes: with [lambda_ = 0], [percentile(1/2)]
    raises nothing and returns [nan]. *)
Lemma percentile_at_lambda_zero_counterexample :
  percentile {| attr_kind := NpFloat64; mu_ := Fin 0; ln_sigma_ := Fin 0;
                lambda_ := Fin 0 |} (Fin (1 / 2))
  = Returns NaN.
Proof. rewrite percentile_at_lambda_zero_numpy. reflexivity. Qed.

(** C7, amended, on numpy attributes at [mu_ = 0], [ln_sigma_ = 0]. *)
Lemma percentile_at_lambda_zero_witness :
  let self := {| attr_kind := NpFloat64; mu_ := Fin 0; ln_sigma_ := Fin 0;
                 lambda_ := Fin 0 |} in
  lambda_ self = Fin 0 /\
  (percentile self (Fin (1 / 2)) = Returns NaN \/
   percentile self (Fin (1 / 2)) = Returns (Fin 0)).
Proof.
  intro self. split; [reflexivity |].
  exact (percentile_at_lambda_zero self (Fin (1 / 2)) 0 0
           eq_refl eq_refl eq_refl).
Defined.

End FloatInstances.

(** ** The class attributes *)

(** C9 fails on the names: the fitted parameter names carry a trailing
    underscore. *)
Lemma model_contract_counterexample :
  _fitted_parameter_names <> ["mu"; "ln_sigma"; "lambda"]%string.
Proof. unfold _fitted_parameter_names. discriminate. Qed.

(** C9, amended: the fitted parameter names are ["mu_"], ["ln_sigma_"],
    ["lambda_"] in this order (the names [mu], [ln_sigma], [lambda] with an
    underscore appended); the bounds are three pairs [(None, None)], which
    bound nothing, so that every real value is allowed for each parameter;
    the reference vector is [[0.0, 0.0, 1.0]]. *)
Theorem model_contract :
  _fitted_parameter_names = ["mu_"; "ln_sigma_"; "lambda_"]%string /\
  _fitted_parameter_names
    = map (fun s => (s ++ "_")%string) ["mu"; "ln_sigma"; "lambda"]%string /\
  _bounds = [(None, None); (None, None); (None, None)] /\
  (forall b, In b _bounds -> forall x, within_bound b x) /\
  _compare_to_values = [0; 0; 1].
Proof.
  repeat split; try reflexivity;
    destruct H as [<- | [<- | [<- | []]]]; exact I.
Qed.

(** ** The initial point *)

Lemma np_subtract_same_length (a b : list R) :
  length a = length b ->
  np_subtract a b = Some (map (fun ba => snd ba - fst ba) (combine b a)).
Proof.
  intro Hlen. unfold np_subtract. rewrite Hlen, Nat.eqb_refl. f_equal.
  revert b Hlen. induction a as [| x a IH]; intros [| y b] Hlen;
    try discriminate; [reflexivity |].
  cbn. f_equal. apply IH. injection Hlen; auto.
Qed.

(** The array whose logarithm is taken: [Ts[0]] under right censoring,
    [Ts[1]] under left censoring, the elementwise difference [Ts[1] - Ts[0]]
    (the two arrays having one length) under interval censoring. *)
Lemma create_initial_point_selected (ct : CensoringType) (Ts : list R * list R)
    (E : list bool) (data : list R) :
  data = match ct with
         | RIGHT => fst Ts
         | LEFT => snd Ts
         | INTERVAL => map (fun lu => snd lu - fst lu) (combine (fst Ts) (snd Ts))
         end ->
  (ct = INTERVAL -> length (fst Ts) = length (snd Ts)) ->
  _create_initial_point ct Ts E
  = Some (np_mean (np_log data), ln (np_std (np_log data)), 1 / 10).
Proof.
  intros -> Hlen. unfold _create_initial_point.
  destruct ct; try reflexivity.
  rewrite np_subtract_same_length by (symmetry; apply Hlen; reflexivity).
  reflexivity.
Qed.

(** The initial point ignores [E]: it is a function of the censoring tag and
    the time arrays alone. *)
Lemma create_initial_point_deterministic (ct : CensoringType)
    (Ts : list R * list R) (E E' : list bool) :
  _create_initial_point ct Ts E = _create_initial_point ct Ts E'.
Proof. reflexivity. Qed.

(** The example of the specification: right-censored [T = [1, 2, 4, 8, 16]]. *)

Lemma np_log_powers_of_two :
  np_log [1; 2; 4; 8; 16] = [0; ln 2; 2 * ln 2; 3 * ln 2; 4 * ln 2].
Proof.
  unfold np_log; cbn [map]. rewrite ln_1.
  replace 4 with (2 * 2) by ring.
  replace 8 with (2 * (2 * 2)) by ring.
  replace 16 with (2 * (2 * (2 * 2))) by ring.
  rewrite !ln_mult by lra.
  repeat (apply (f_equal2 cons); [ring |]). reflexivity.
Qed.

Lemma np_mean_log_powers_of_two : np_mean (np_log [1; 2; 4; 8; 16]) = 2 * ln 2.
Proof.
  rewrite np_log_powers_of_two. unfold np_mean, np_sum.
  cbn [fold_right length]. replace (INR 5) with 5 by (cbn; ring). field.
Qed.

Lemma np_std_log_powers_of_two :
  np_std (np_log [1; 2; 4; 8; 16]) = sqrt 2 * ln 2.
Proof.
  unfold np_std. rewrite np_mean_log_powers_of_two, np_log_powers_of_two.
  unfold np_mean, np_sum. cbn [map fold_right length].
  replace (INR 5) with 5 by (cbn; ring).
  replace (_ / 5) with (2 * (ln 2 * ln 2)) by field.
  rewrite sqrt_mult by (generalize ln_2_pos; nra).
  rewrite sqrt_square by (generalize ln_2_pos; lra). reflexivity.
Qed.

Lemma create_initial_point_example :
  _create_initial_point RIGHT ([1; 2; 4; 8; 16], []) []
  = Some (2 * ln 2, ln (sqrt 2 * ln 2), 1 / 10).
Proof.
  unfold _create_initial_point; cbn [fst].
  rewrite np_std_log_powers_of_two, np_mean_log_powers_of_two. reflexivity.
Qed.

(* ================================================================= *)
(** * Part III: further properties of the evaluators *)
(* ================================================================= *)

(** ** How the two branches and the parameters are related *)

Section ExactStructure.
Import Exact.
Context {SF : SpecialFunctions}.

Lemma ln_reflected (mu t : R) : 0 < t -> ln (exp (2 * mu) / t) = 2 * mu - ln t.
Proof.
  intro Ht. unfold Rdiv. rewrite ln_mult, ln_exp, ln_Rinv; try assumption.
  - ring.
  - apply exp_pos.
  - apply Rinv_0_lt_compat; assumption.
Qed.

Lemma ln_rescaled (mu t : R) : 0 < t -> ln (t / exp mu) = ln t - mu.
Proof.
  intro Ht. unfold Rdiv. rewrite ln_mult, ln_Rinv, ln_exp; try assumption.
  - ring.
  - apply exp_pos.
  - apply Rinv_0_lt_compat, exp_pos.
Qed.

(** The argument of the incomplete gamma at [-lambda] and the reflected
    time [exp(2 mu) / t] is the argument at [lambda] and [t]. *)
Lemma reflected_argument (mu ls lambda t : R) :
  0 < t ->
  - lambda * ((ln (exp (2 * mu) / t) - mu) / safe_exp ls)
  = lambda * ((ln t - mu) / safe_exp ls).
Proof.
  intro Ht. rewrite ln_reflected by assumption.
  field. apply Rgt_not_eq, safe_exp_pos.
Qed.

Lemma reflected_shape (lambda : R) : 1 / (- lambda) ^ 2 = 1 / lambda ^ 2.
Proof. f_equal. ring. Qed.

(** X2: Negating [lambda] and reflecting the time about [exp(mu)] on the
    logarithmic scale exchanges [_log_1m_sf] and minus the cumulative
    hazard: both branches call the same routine at the same shape and
    argument. *)
Theorem log_1m_sf_reflects_cumulative_hazard (mu ln_sigma lambda t : R) :
  lambda <> 0 -> 0 < t ->
  _log_1m_sf (mu, ln_sigma, - lambda) (exp (2 * mu) / t)
  = - _cumulative_hazard (mu, ln_sigma, lambda) t.
Proof.
  intros Hl Ht. unfold _log_1m_sf, _cumulative_hazard.
  rewrite reflected_shape, reflected_argument by assumption.
  destruct (Rgt_dec lambda 0); destruct (Rgt_dec (- lambda) 0);
    try (exfalso; lra); rewrite ?Ropp_involutive; ring.
Qed.

(** The two tails sum to 1. *)
Hypothesis tails_sum : forall a x, 0 < a -> 0 < x ->
  gammainc a x + gammaincc a x = 1.

(** X1: Negating [lambda] and reflecting the time turns the survival function
    into the distribution function: the survival functions at
    [(mu, ln_sigma, lambda)], [t] and at [(mu, ln_sigma, -lambda)],
    [exp(2 mu) / t] sum to 1. *)
Theorem survival_reflection (mu ln_sigma lambda t : R) :
  lambda <> 0 -> 0 < t ->
  _survival_function (mu, ln_sigma, - lambda) (exp (2 * mu) / t)
  = 1 - _survival_function (mu, ln_sigma, lambda) t.
Proof.
  intros Hl Ht. unfold _survival_function.
  rewrite reflected_shape, reflected_argument by assumption.
  pose proof (shape_pos lambda Hl) as Hk.
  destruct (Rgt_dec lambda 0); destruct (Rgt_dec (- lambda) 0);
    try (exfalso; lra).
  - rewrite Ropp_involutive.
    generalize (tails_sum _ _ Hk (safe_exp_pos
      (lambda * ((ln t - mu) / safe_exp ln_sigma) - 2 * ln lambda))). lra.
  - generalize (tails_sum _ _ Hk (safe_exp_pos
      (lambda * ((ln t - mu) / safe_exp ln_sigma) - 2 * ln (- lambda)))). lra.
Qed.



End ExactStructure.

(** ** The sub-models at [lambda = 1] and [lambda = -1] *)

Section ExactSubmodels.
Import Exact.
Context {SF : SpecialFunctions}.

Hypothesis tails_sum : forall a x, 0 < a -> 0 < x ->
  gammainc a x + gammaincc a x = 1.
Hypothesis upper_shape_one : forall x, 0 < x -> gammaincc 1 x = exp (- x).
Hypothesis gammainccln_log : forall a x, 0 < a -> 0 < x ->
  gammainccln a x = ln (gammaincc a x).

Lemma Rpower_rescaled (mu ls t : R) :
  0 < t -> Rpower (t / exp mu) (/ exp ls) = exp ((ln t - mu) / exp ls).
Proof.
  intro Ht. unfold Rpower. rewrite ln_rescaled by assumption.
  f_equal. unfold Rdiv. ring.
Qed.



End ExactSubmodels.

(** ** The initial point under a change of the unit of time *)

Section InitialPoint.

Lemma np_sum_shift (a : R) (l : list R) :
  np_sum (map (Rplus a) l) = INR (length l) * a + np_sum l.
Proof.
  unfold np_sum. induction l as [| x l IH].
  - cbn. ring.
  - cbn [map fold_right length]. rewrite IH, S_INR. ring.
Qed.

Lemma INR_length_nonzero (l : list R) : l <> [] -> INR (length l) <> 0.
Proof.
  intro Hl. destruct l as [| x l]; [contradiction |].
  apply not_0_INR. discriminate.
Qed.

Lemma np_mean_shift (a : R) (l : list R) :
  l <> [] -> np_mean (map (Rplus a) l) = a + np_mean l.
Proof.
  intro Hl. unfold np_mean. rewrite np_sum_shift, length_map.
  field. apply INR_length_nonzero; assumption.
Qed.

(** The standard deviation does not see a shift of the data. *)
Lemma np_std_shift (a : R) (l : list R) :
  l <> [] -> np_std (map (Rplus a) l) = np_std l.
Proof.
  intro Hl. unfold np_std. rewrite (np_mean_shift a l Hl), map_map.
  f_equal. f_equal. apply map_ext. intro x. ring.
Qed.

Lemma np_log_scale (c : R) (l : list R) :
  0 < c -> Forall (fun x => 0 < x) l ->
  np_log (map (Rmult c) l) = map (Rplus (ln c)) (np_log l).
Proof.
  intros Hc Hl. unfold np_log. rewrite !map_map.
  induction Hl as [| x l Hx Hl IH]; [reflexivity |].
  cbn [map]. rewrite IH, ln_mult by assumption. reflexivity.
Qed.

Lemma differences_scale (c : R) (lower upper : list R) :
  map (fun lu => snd lu - fst lu)
      (combine (map (Rmult c) lower) (map (Rmult c) upper))
  = map (Rmult c) (map (fun lu => snd lu - fst lu) (combine lower upper)).
Proof.
  revert upper. induction lower as [| x lower IH]; intros [| y upper];
    try reflexivity.
  cbn [map combine fst snd]. rewrite IH. f_equal. ring.
Qed.

(** X15: A change of the unit of time: when every time is multiplied by [c > 0],
    the initial [mu] moves by [log(c)] and the initial [ln_sigma] and
    [lambda] stay as they are.  [data] is the array whose logarithm is
    taken; it is not empty and its entries are positive. *)
Theorem create_initial_point_rescaled (ct : CensoringType)
    (Ts : list R * list R) (E : list bool) (c : R) (data : list R) :
  data = match ct with
         | RIGHT => fst Ts
         | LEFT => snd Ts
         | INTERVAL => map (fun lu => snd lu - fst lu) (combine (fst Ts) (snd Ts))
         end ->
  (ct = INTERVAL -> length (fst Ts) = length (snd Ts)) ->
  0 < c -> data <> [] -> Forall (fun x => 0 < x) data ->
  _create_initial_point ct Ts E
    = Some (np_mean (np_log data), ln (np_std (np_log data)), 1 / 10) /\
  _create_initial_point ct (map (Rmult c) (fst Ts), map (Rmult c) (snd Ts)) E
    = Some (np_mean (np_log data) + ln c, ln (np_std (np_log data)), 1 / 10).
Proof.
  intros Hdata Hlen Hc Hne Hpos.
  assert (Hlog : np_log data <> []).
  { destruct data; [contradiction | discriminate]. }
  assert (Hshift : forall scaled, scaled = map (Rmult c) data ->
    Some (np_mean (np_log scaled), ln (np_std (np_log scaled)), 1 / 10)
    = Some (np_mean (np_log data) + ln c, ln (np_std (np_log data)), 1 / 10)).
  { intros scaled ->. rewrite (np_log_scale c data Hc Hpos).
    rewrite np_mean_shift, np_std_shift by assumption.
    do 3 f_equal. ring. }
  unfold _create_initial_point; cbn [fst snd].
  destruct ct; subst data.
  - split; [reflexivity | apply Hshift; reflexivity].
  - split; [reflexivity | apply Hshift; reflexivity].
  - specialize (Hlen eq_refl).
    rewrite !np_subtract_same_length by (rewrite ?length_map; auto).
    cbn [option_map]. split; [reflexivity |].
    apply Hshift. apply differences_scale.
Qed.

End InitialPoint.

(** ** The further properties at concrete inputs *)

Section MoreExactInstances.
Import Exact.
Local Existing Instance exp_family.

(** X2 at a concrete input. *)
Lemma log_1m_sf_reflects_cumulative_hazard_witness :
  1 <> 0 /\ 0 < 2 /\
  _log_1m_sf (0, 0, - 1) (exp (2 * 0) / 2) = - _cumulative_hazard (0, 0, 1) 2.
Proof.
  assert (H1 : 1 <> 0) by lra. assert (H2 : 0 < 2) by lra.
  split; [exact H1 | split; [exact H2 |]].
  exact (log_1m_sf_reflects_cumulative_hazard 0 0 1 2 H1 H2).
Defined.

(** X1 at a concrete input. *)
Lemma survival_reflection_witness :
  1 <> 0 /\ 0 < 2 /\
  _survival_function (0, 0, - 1) (exp (2 * 0) / 2)
  = 1 - _survival_function (0, 0, 1) 2.
Proof.
  assert (H1 : 1 <> 0) by lra. assert (H2 : 0 < 2) by lra.
  split; [exact H1 | split; [exact H2 |]].
  exact (survival_reflection exp_family_tails_sum 0 0 1 2 H1 H2).
Defined.









End MoreExactInstances.



(** X15 at a concrete input. *)
Lemma create_initial_point_rescaled_witness :
  0 < 2 /\ [1; 3] <> [] /\ Forall (fun x => 0 < x) [1; 3] /\
  _create_initial_point RIGHT (map (Rmult 2) [1; 3], map (Rmult 2) []) []
  = Some (np_mean (np_log [1; 3]) + ln 2, ln (np_std (np_log [1; 3])), 1 / 10).
Proof.
  assert (H1 : 0 < 2) by lra.
  assert (H2 : [1; 3] <> []) by discriminate.
  assert (H3 : Forall (fun x => 0 < x) [1; 3]) by (repeat constructor; lra).
  split; [exact H1 | split; [exact H2 | split; [exact H3 |]]].
  refine (proj2 (create_initial_point_rescaled RIGHT ([1; 3], []) [] 2 [1; 3]
                   eq_refl _ H1 H2 H3)).
  discriminate.
Defined.

(** ** The hazard of the Weibull sub-model *)

Section WeibullHazard.
Import Exact.
Context {SF : SpecialFunctions}.

Hypothesis upper_shape_one : forall x, 0 < x -> gammaincc 1 x = exp (- x).
Hypothesis gammainccln_log : forall a x, 0 < a -> 0 < x ->
  gammainccln a x = ln (gammaincc a x).
(** [log Gamma(1) = 0] *)
Hypothesis gammaln_one : gammaln 1 = 0.


End WeibullHazard.

Section WeibullHazardInstance.
Import Exact.
Local Existing Instance exp_family.


End WeibullHazardInstance.

(* ================================================================= *)
(** * Part IV: the evaluators within the range of float64 *)
(* ================================================================= *)

Section Float64Range.
Import Float.

Lemma ETA_pos : 0 < Float64.ETA.
Proof. apply exp_pos. Qed.

Lemma ETA_lt_1 : Float64.ETA < 1.
Proof.
  unfold Float64.ETA, Rpower. rewrite <- exp_0. apply exp_increasing.
  generalize ln_2_pos. nra.
Qed.

Lemma OMEGA_gt_513 : 513 < Float64.OMEGA.
Proof.
  unfold Float64.OMEGA, Rpower.
  generalize (exp_ineq1_le (1024 * ln 2)) ln_lt_2. lra.
Qed.

(** [exp(-1100)] is below the smallest float. *)
Lemma exp_underflows (x : R) : x <= -1100 -> exp x < Float64.ETA.
Proof.
  intro Hx. unfold Float64.ETA, Rpower. apply exp_increasing.
  generalize ln_2_lt_1. nra.
Qed.

Lemma rnd_in_range (r : R) : Float64.in_range r -> Float64.rnd r = Fin r.
Proof.
  pose proof ETA_pos. pose proof OMEGA_gt_513.
  intros [-> | [Hlo Hhi]]; unfold Float64.rnd.
  - rewrite Rabs_R0. destruct (Rle_dec Float64.OMEGA 0); [lra |].
    destruct (Rlt_dec 0 Float64.ETA); [reflexivity | lra].
  - destruct (Rle_dec Float64.OMEGA (Rabs r)); [lra |].
    destruct (Rlt_dec (Rabs r) Float64.ETA); [lra | reflexivity].
Qed.

Lemma rnd_underflow (r : R) : Rabs r < Float64.ETA -> Float64.rnd r = Fin 0.
Proof.
  pose proof ETA_lt_1. pose proof OMEGA_gt_513.
  intro Hr. unfold Float64.rnd.
  destruct (Rle_dec Float64.OMEGA (Rabs r)); [lra |].
  destruct (Rlt_dec (Rabs r) Float64.ETA); [reflexivity | lra].
Qed.

Lemma in_range_pos (r : R) :
  Float64.ETA <= r -> r < Float64.OMEGA -> Float64.in_range r.
Proof.
  pose proof ETA_pos. intros Hlo Hhi. right. rewrite Rabs_pos_eq by lra. lra.
Qed.

Lemma in_range_moderate (r : R) : 1 <= Rabs r <= 513 -> Float64.in_range r.
Proof.
  pose proof ETA_lt_1. pose proof OMEGA_gt_513. intro Hr. right. lra.
Qed.

Lemma in_range_0 : Float64.in_range 0.
Proof. left; reflexivity. Qed.

Lemma add_in_range (a b : R) :
  Float64.in_range (a + b) -> Float64.add (Fin a) (Fin b) = Fin (a + b).
Proof. apply rnd_in_range. Qed.

Lemma sub_in_range (a b : R) :
  Float64.in_range (a - b) -> Float64.sub (Fin a) (Fin b) = Fin (a - b).
Proof. apply rnd_in_range. Qed.

Lemma mul_in_range (a b : R) :
  Float64.in_range (a * b) -> Float64.mul (Fin a) (Fin b) = Fin (a * b).
Proof. apply rnd_in_range. Qed.

Lemma div_in_range (a b : R) :
  b <> 0 -> Float64.in_range (a / b) ->
  Float64.div (Fin a) (Fin b) = Fin (a / b).
Proof.
  intros Hb H. unfold Float64.div. rewrite fdiv_fin by assumption.
  apply rnd_in_range; assumption.
Qed.

Lemma sqr_in_range (a : R) :
  Float64.in_range (a ^ 2) -> Float64.sqr (Fin a) = Fin (a ^ 2).
Proof. apply rnd_in_range. Qed.

Lemma log_in_range (a : R) :
  0 < a -> Float64.in_range (ln a) -> Float64.log (Fin a) = Fin (ln a).
Proof.
  intros Ha H. unfold Float64.log. rewrite flog_fin by assumption.
  apply rnd_in_range; assumption.
Qed.

Lemma exp_in_range (a : R) :
  Float64.in_range (exp a) -> Float64.exp (Fin a) = Fin (exp a).
Proof. apply rnd_in_range. Qed.

End Float64Range.

(** ** Within the range the float64 reading returns the exact values *)

Section Float64Exact.
Import Float.
Context {SF : Exact.SpecialFunctions}.
Local Existing Instance float64_functions.

Lemma f64_safe_exp_in_range (x : R) :
  Float64.in_range (exp (Rmin x Exact.MAX)) ->
  Float64.safe_exp (Fin x) = Fin (exp (Rmin x Exact.MAX)).
Proof. apply rnd_in_range. Qed.

(** The argument handed to the incomplete gamma and the shape, when every
    intermediate result is in the range; [L] is the logarithm the branch
    takes, [log(lambda_)] or [log(-lambda_)]. *)
Lemma f64_shape_and_argument (mu ls lambda t : R) (L : npfloat) :
  lambda <> 0 -> 0 < t ->
  L = Fin (ln (Rabs lambda)) ->
  Forall Float64.in_range (intermediates mu ls lambda t) ->
  let Z := (ln t - mu) / exp (Rmin ls Exact.MAX) in
  Float64.div (Fin 1) (Float64.sqr (Fin lambda)) = Fin (1 / lambda ^ 2) /\
  Float64.safe_exp
    (Float64.sub
       (Float64.mul (Fin lambda)
          (Float64.div (Float64.sub (Float64.log (Fin t)) (Fin mu))
                       (Float64.safe_exp (Fin ls))))
       (Float64.mul (Fin 2) L))
  = Fin (exp (Rmin (lambda * Z - 2 * ln (Rabs lambda)) Exact.MAX)).
Proof.
  intros Hl Ht -> Hall Z. subst Z. unfold intermediates in Hall.
  repeat match goal with
         | H : Forall _ (_ :: _) |- _ => inversion H; subst; clear H
         end.
  split.
  - rewrite sqr_in_range by assumption.
    apply div_in_range; [apply sqr_nonzero |]; assumption.
  - rewrite f64_safe_exp_in_range by assumption.
    rewrite log_in_range by assumption.
    rewrite sub_in_range by assumption.
    rewrite div_in_range by (try apply Rgt_not_eq, exp_pos; assumption).
    rewrite !mul_in_range by assumption.
    rewrite sub_in_range by assumption.
    apply f64_safe_exp_in_range; assumption.
Qed.

Lemma f64_log_lambda_pos (lambda : R) :
  lambda > 0 -> Float64.in_range (ln (Rabs lambda)) ->
  Float64.log (Fin lambda) = Fin (ln (Rabs lambda)).
Proof.
  intros Hl H. rewrite Rabs_pos_eq in * by lra. apply log_in_range; assumption.
Qed.

Lemma f64_log_lambda_neg (lambda : R) :
  lambda < 0 -> Float64.in_range (ln (Rabs lambda)) ->
  Float64.log (fneg (Fin lambda)) = Fin (ln (Rabs lambda)).
Proof.
  intros Hl H. rewrite Rabs_left in * by lra. cbn [fneg].
  apply log_in_range; [lra | assumption].
Qed.

Lemma intermediates_log_lambda (mu ls lambda t : R) :
  Forall Float64.in_range (intermediates mu ls lambda t) ->
  Float64.in_range (ln (Rabs lambda)).
Proof.
  unfold intermediates. intro H.
  do 5 (inversion H as [| ? ? _ H']; subst; clear H; rename H' into H).
  inversion H; assumption.
Qed.

(** The survival function in the range: the tail of the exact reading at
    the same shape and argument, brought into the range of the floats. *)
Lemma f64_survival_function_value (mu ls lambda t : R) :
  lambda <> 0 -> 0 < t ->
  Forall Float64.in_range (intermediates mu ls lambda t) ->
  Float64._survival_function (Fin mu, Fin ls, Fin lambda) (Fin t)
  = Float64.rnd (Exact._survival_function (mu, ls, lambda) t).
Proof.
  intros Hl Ht Hall.
  pose proof (intermediates_log_lambda _ _ _ _ Hall) as Hlog.
  unfold Float64._survival_function, Exact._survival_function, Exact.safe_exp.
  destruct (Rgt_dec lambda 0) as [Hpos | Hneg].
  - rewrite fgt0_pos by assumption.
    destruct (f64_shape_and_argument mu ls lambda t _ Hl Ht
                (f64_log_lambda_pos _ Hpos Hlog) Hall) as [-> ->].
    rewrite Rabs_pos_eq by lra. reflexivity.
  - rewrite fgt0_nonpos by lra.
    assert (Hlt : lambda < 0) by lra.
    destruct (f64_shape_and_argument mu ls lambda t _ Hl Ht
                (f64_log_lambda_neg _ Hlt Hlog) Hall) as [-> ->].
    rewrite Rabs_left by lra. reflexivity.
Qed.

Lemma f64_log_1m_sf_value (mu ls lambda t : R) :
  lambda <> 0 -> 0 < t ->
  Forall Float64.in_range (intermediates mu ls lambda t) ->
  Float64._log_1m_sf (Fin mu, Fin ls, Fin lambda) (Fin t)
  = Float64.rnd (Exact._log_1m_sf (mu, ls, lambda) t).
Proof.
  intros Hl Ht Hall.
  pose proof (intermediates_log_lambda _ _ _ _ Hall) as Hlog.
  unfold Float64._log_1m_sf, Exact._log_1m_sf, Exact.safe_exp.
  destruct (Rgt_dec lambda 0) as [Hpos | Hneg].
  - rewrite fgt0_pos by assumption.
    destruct (f64_shape_and_argument mu ls lambda t _ Hl Ht
                (f64_log_lambda_pos _ Hpos Hlog) Hall) as [-> ->].
    rewrite Rabs_pos_eq by lra. reflexivity.
  - rewrite fgt0_nonpos by lra.
    assert (Hlt : lambda < 0) by lra.
    destruct (f64_shape_and_argument mu ls lambda t _ Hl Ht
                (f64_log_lambda_neg _ Hlt Hlog) Hall) as [-> ->].
    rewrite Rabs_left by lra. reflexivity.
Qed.

End Float64Exact.

(** ** Values in the unit interval and the range *)

Section UnitRange.
Import Float.

Lemma rnd_unit (r : R) :
  0 <= r <= 1 -> exists q, Float64.rnd r = Fin q /\ 0 <= q <= r.
Proof.
  pose proof OMEGA_gt_513. intros Hr. unfold Float64.rnd.
  rewrite Rabs_pos_eq by lra.
  destruct (Rle_dec Float64.OMEGA r); [lra |].
  destruct (Rlt_dec r Float64.ETA).
  - exists 0. split; [reflexivity | lra].
  - exists r. split; [reflexivity | lra].
Qed.

(** Bringing into the range keeps the order of values of the unit
    interval. *)
Lemma rnd_unit_mono (a b : R) :
  0 <= a -> a <= b -> b <= 1 ->
  exists qa qb, Float64.rnd a = Fin qa /\ Float64.rnd b = Fin qb /\ qa <= qb.
Proof.
  pose proof OMEGA_gt_513. intros Ha Hab Hb. unfold Float64.rnd.
  rewrite !Rabs_pos_eq by lra.
  destruct (Rle_dec Float64.OMEGA a); [lra |].
  destruct (Rle_dec Float64.OMEGA b); [lra |].
  destruct (Rlt_dec a Float64.ETA), (Rlt_dec b Float64.ETA);
    do 2 eexists; (split; [reflexivity | split; [reflexivity | lra]]).
Qed.

(** An exponential of a moderate exponent is in the range. *)
Lemma exp_in_range_moderate (x : R) :
  -500 <= x <= 500 -> Float64.in_range (exp x).
Proof.
  intro Hx. apply in_range_pos.
  - unfold Float64.ETA, Rpower. apply exp_le. generalize ln_lt_2. nra.
  - unfold Float64.OMEGA, Rpower.
    apply Rle_lt_trans with (exp 500); [apply exp_le; lra |].
    apply exp_increasing. generalize ln_lt_2. nra.
Qed.

End UnitRange.

(** ** The survival function and its complement on float64 *)

Section Float64Survival.
Import Float.
Context {SF : Exact.SpecialFunctions}.
Local Existing Instance float64_functions.

(** The properties assumed of the incomplete gamma functions, at a shape
    [a > 0] and an argument [x > 0]. *)
Hypothesis tails_sum : forall a x, 0 < a -> 0 < x ->
  Exact.gammainc a x + Exact.gammaincc a x = 1.
Hypothesis lower_pos : forall a x, 0 < a -> 0 < x -> 0 < Exact.gammainc a x.
Hypothesis upper_pos : forall a x, 0 < a -> 0 < x -> 0 < Exact.gammaincc a x.
Hypothesis lower_mono : forall a x y, 0 < a -> 0 < x -> x <= y ->
  Exact.gammainc a x <= Exact.gammainc a y.


(** The logarithmic variants are the logarithms. *)
Hypothesis gammaincln_log : forall a x, 0 < a -> 0 < x ->
  Exact.gammaincln a x = ln (Exact.gammainc a x).
Hypothesis gammainccln_log : forall a x, 0 < a -> 0 < x ->
  Exact.gammainccln a x = ln (Exact.gammaincc a x).


End Float64Survival.

(** ** The reference vector on float64 *)

Section Float64Reference.
Import Float.
Context {SF : Exact.SpecialFunctions}.
Local Existing Instance float64_functions.

Hypothesis upper_shape_one : forall x, 0 < x -> Exact.gammaincc 1 x = exp (- x).

Lemma exp_Rmin_ln (t M : R) : 0 < t -> exp (Rmin (ln t) M) = Rmin t (exp M).
Proof.
  intro Ht. destruct (Rle_dec (ln t) M) as [H | H].
  - rewrite Rmin_left by assumption. rewrite exp_ln by assumption.
    rewrite Rmin_left; [reflexivity |].
    rewrite <- (exp_ln t Ht) at 1. apply exp_le; assumption.
  - rewrite Rmin_right by lra. rewrite Rmin_right; [reflexivity |].
    rewrite <- (exp_ln t Ht). apply exp_le; lra.
Qed.

Lemma intermediates_at_reference (t : R) :
  0 <= Exact.MAX -> 0 < t ->
  intermediates 0 0 1 t
  = [1; ln t; ln t; ln t; ln t; 0; 0; ln t; Rmin t (exp Exact.MAX); 1; 1].
Proof.
  intros HM Ht. unfold intermediates.
  rewrite (Rmin_left 0 Exact.MAX HM), exp_0, Rabs_R1, ln_1.
  replace (1 * ((ln t - 0) / 1) - 2 * 0) with (ln t) by field.
  rewrite exp_Rmin_ln by assumption.
  repeat (apply (f_equal2 cons); [try reflexivity; field |]). reflexivity.
Qed.

(** C5: the reference vector is [(0, 0, 1)], and there the survival function
    at every positive float [t] is [exp(-t)] as numpy computes it: the
    argument of the upper tail is [t] up to [exp(MAX)], and beyond it both
    values have underflowed to 0.  The bound [MAX] is such that [exp(MAX)]
    is a float beyond which [exp(-t)] underflows; the logarithm of [t] is in
    the range, as it is for every float. *)
Theorem f64_survival_at_reference_is_exponential :
  0 <= Exact.MAX -> exp Exact.MAX < Float64.OMEGA -> 1100 <= exp Exact.MAX ->
  unpack _compare_to_values = Some (0, 0, 1) /\
  forall t, Float64.ETA <= t -> t < Float64.OMEGA -> Float64.in_range (ln t) ->
    Float64._survival_function (Fin 0, Fin 0, Fin 1) (Fin t)
    = Float64.exp (Fin (- t)).
Proof.
  intros HM Hhi Hlo. split; [reflexivity |].
  intros t Ht1 Ht2 Hln.
  pose proof ETA_pos as HE. pose proof ETA_lt_1 as HE1.
  assert (Ht : 0 < t) by lra.
  assert (Hx : Float64.in_range (Rmin t (exp Exact.MAX))).
  { apply in_range_pos.
    - apply Rmin_glb; lra.
    - apply Rle_lt_trans with t; [apply Rmin_l | assumption]. }
  rewrite f64_survival_function_value; [| lra | assumption |].
  2:{ rewrite intermediates_at_reference by assumption.
      repeat (apply Forall_cons;
        [first [assumption | apply in_range_0
               | apply in_range_moderate; rewrite Rabs_R1; lra] |]).
      apply Forall_nil. }
  rewrite (survival_at_reference_capped upper_shape_one t HM Ht).
  change (Float64.exp (Fin (- t))) with (Float64.rnd (exp (- t))).
  destruct (Rle_dec t (exp Exact.MAX)) as [Hle | Hgt].
  - rewrite Rmin_left by assumption. reflexivity.
  - rewrite Rmin_right by lra.
    rewrite !rnd_underflow; [reflexivity | |];
      rewrite Rabs_pos_eq by (left; apply exp_pos);
      apply exp_underflows; lra.
Qed.

End Float64Reference.

(** ** Underflow of the scale *)

Section Float64Underflow.
Import Float.
Context {SF : Exact.SpecialFunctions}.
Local Existing Instance float64_functions.

(** [safe_exp(ln_sigma)] is 0 once [exp(ln_sigma)] is below the smallest
    float. *)
Lemma f64_sigma_underflows (ls : R) :
  ls <= -1100 -> Float64.safe_exp (Fin ls) = Fin 0.
Proof.
  intro Hls. change (Float64.safe_exp (Fin ls))
    with (Float64.rnd (exp (Rmin ls Exact.MAX))).
  apply rnd_underflow. rewrite Rabs_pos_eq by (left; apply exp_pos).
  apply Rle_lt_trans with (exp ls).
  - apply exp_le. apply Rmin_l.
  - apply exp_underflows; assumption.
Qed.

Lemma f64_log_one : Float64.log (Fin 1) = Fin 0.
Proof.
  unfold Float64.log. rewrite flog_fin by lra. rewrite ln_1.
  apply rnd_in_range, in_range_0.
Qed.

(** With [mu = 0] and [t = 1] the standardised time is [0.0 / 0.0]. *)
Lemma f64_Z_nan (ls : R) :
  ls <= -1100 ->
  Float64.div (Float64.sub (Float64.log (Fin 1)) (Fin 0))
              (Float64.safe_exp (Fin ls)) = NaN.
Proof.
  intro Hls. rewrite f64_sigma_underflows by assumption. rewrite f64_log_one.
  assert (H : Float64.sub (Fin 0) (Fin 0) = Fin 0).
  { unfold Float64.sub, fsub, fneg, fadd, Float64.renorm.
    replace (0 + - 0) with 0 by ring. apply rnd_in_range, in_range_0. }
  rewrite H. unfold Float64.div, fdiv.
  destruct (Req_dec_T 0 0); [reflexivity | lra].
Qed.

Lemma on_floats_nan (f : R -> R -> R) (d a : npfloat) : on_floats f d a NaN = NaN.
Proof. destruct a; reflexivity. Qed.

Lemma f64_survival_nan (ls lambda : R) :
  ls <= -1100 ->
  Float64._survival_function (Fin 0, Fin ls, Fin lambda) (Fin 1) = NaN.
Proof.
  intro Hls. unfold Float64._survival_function.
  rewrite f64_Z_nan by assumption.
  destruct (fgt0 (Fin lambda)); cbn; rewrite on_floats_nan; reflexivity.
Qed.

Lemma f64_log_1m_sf_nan (ls lambda : R) :
  ls <= -1100 ->
  Float64._log_1m_sf (Fin 0, Fin ls, Fin lambda) (Fin 1) = NaN.
Proof.
  intro Hls. unfold Float64._log_1m_sf.
  rewrite f64_Z_nan by assumption.
  destruct (fgt0 (Fin lambda)); cbn; rewrite on_floats_nan; reflexivity.
Qed.

(** Every intermediate result at the reference vector is in the range, for
    [t] a float whose logarithm is one. *)
Lemma reference_intermediates_in_range (t : R) :
  0 <= Exact.MAX ->
  Float64.ETA <= t -> t < Float64.OMEGA -> Float64.in_range (ln t) ->
  Forall Float64.in_range (intermediates 0 0 1 t).
Proof.
  intros HM Ht1 Ht2 Hln.
  pose proof ETA_pos as HE. pose proof ETA_lt_1 as HE1.
  assert (H1 : 1 <= exp Exact.MAX)
    by (rewrite <- exp_0; apply exp_le; assumption).
  assert (Hx : Float64.in_range (Rmin t (exp Exact.MAX))).
  { apply in_range_pos.
    - apply Rmin_glb; lra.
    - apply Rle_lt_trans with t; [apply Rmin_l | assumption]. }
  rewrite intermediates_at_reference by lra.
  repeat (apply Forall_cons;
    [first [assumption | apply in_range_0
           | apply in_range_moderate; rewrite Rabs_R1; lra] |]).
  apply Forall_nil.
Qed.

End Float64Underflow.

(** ** Float64 instances *)

Lemma ln_2_gt_5_8 : 5 / 8 < ln 2.
Proof.
  assert (H1 : 27 / 32 <= exp (- (5 / 32)))
    by (generalize (exp_ineq1_le (- (5 / 32))); lra).
  assert (H4 : / 2 < exp (- (5 / 8))).
  { replace (- (5 / 8)) with (- (5 / 32) + - (5 / 32) + (- (5 / 32) + - (5 / 32)))
      by field.
    rewrite !exp_plus. set (e := exp (- (5 / 32))) in *.
    assert (He2 : 729 / 1024 <= e * e) by nra.
    nra. }
  assert (H : - ln 2 < - (5 / 8)).
  { rewrite <- ln_Rinv by lra. rewrite <- (ln_exp (- (5 / 8))).
    apply ln_increasing; lra. }
  lra.
Qed.

Lemma exp_634_lt_OMEGA : exp 634 < Float64.OMEGA.
Proof.
  unfold Float64.OMEGA, Rpower. apply exp_increasing.
  generalize ln_2_gt_5_8. lra.
Qed.

Lemma exp_634_ge_1100 : 1100 <= exp 634.
Proof.
  pose proof exp_66_gt. assert (exp 66 <= exp 634) by (apply exp_le; lra). lra.
Qed.

Lemma exp_1_in_float_range : Float64.ETA <= exp 1 /\ exp 1 < Float64.OMEGA.
Proof.
  pose proof ETA_lt_1. pose proof OMEGA_gt_513.
  pose proof exp_1_gt_2. pose proof exp_le_3. lra.
Qed.

Lemma ln_1m_exp_m1_in_range : Float64.in_range (ln (1 - exp (- 1))).
Proof.
  pose proof OMEGA_gt_513 as HO. pose proof exp_1_gt_2 as H2.
  pose proof (exp_pos (- 1)) as Hp.
  assert (He : exp (- 1) < / 2).
  { replace (exp (- 1)) with (/ exp 1) by (rewrite <- exp_Ropp; f_equal; lra).
    apply Rinv_lt_contravar; lra. }
  assert (Hup : ln (1 - exp (- 1)) <= - exp (- 1)).
  { rewrite <- (ln_exp (- exp (- 1))). apply ln_le_pos; [lra |].
    generalize (exp_ineq1_le (- exp (- 1))). lra. }
  assert (Hlo : - 1 < ln (1 - exp (- 1))).
  { apply Rle_lt_trans with (ln (exp (- 1))); [rewrite ln_exp; lra |].
    apply ln_increasing; lra. }
  assert (HE : Float64.ETA <= exp (- 1)).
  { unfold Float64.ETA, Rpower. apply exp_le. generalize ln_2_gt_5_8. lra. }
  right. rewrite Rabs_left by lra. lra.
Qed.

Section Float64Instances.
Import Float.
Local Existing Instance exp_family.
Local Existing Instance float64_functions.

Lemma exp_family_MAX_nonneg : 0 <= Exact.MAX.
Proof. cbn. lra. Qed.

Lemma one_in_float_range : Float64.ETA <= 1 /\ 1 < Float64.OMEGA.
Proof. pose proof ETA_lt_1. pose proof OMEGA_gt_513. lra. Qed.

Lemma reference_in_range_at_1 : Forall Float64.in_range (intermediates 0 0 1 1).
Proof.
  destruct one_in_float_range.
  apply reference_intermediates_in_range;
    [apply exp_family_MAX_nonneg | assumption | assumption |].
  rewrite ln_1. apply in_range_0.
Qed.

Lemma reference_in_range_at_e :
  Forall Float64.in_range (intermediates 0 0 1 (exp 1)).
Proof.
  destruct exp_1_in_float_range.
  apply reference_intermediates_in_range;
    [apply exp_family_MAX_nonneg | assumption | assumption |].
  rewrite ln_exp. apply in_range_moderate. rewrite Rabs_R1. lra.
Qed.

Lemma exp_family_survival_at_1 :
  Exact._survival_function (0, 0, 1) 1 = exp (- 1).
Proof.
  rewrite (survival_at_reference_capped exp_family_upper_shape_one 1
             exp_family_MAX_nonneg Rlt_0_1).
  rewrite Rmin_left; [f_equal; lra |].
  rewrite <- exp_0. apply exp_le. apply exp_family_MAX_nonneg.
Qed.

Lemma exp_family_log_1m_sf_at_1 :
  Exact._log_1m_sf (0, 0, 1) 1 = ln (1 - exp (- 1)).
Proof.
  unfold Exact._log_1m_sf. destruct (Rgt_dec 1 0); [| lra].
  rewrite ln_1, (safe_exp_below 0 exp_family_MAX_nonneg), exp_0.
  replace (1 * ((0 - 0) / 1) - 2 * 0) with 0 by field.
  rewrite (safe_exp_below 0 exp_family_MAX_nonneg), exp_0.
  reflexivity.
Qed.

Lemma f64_survival_at_reference_is_exponential_witness :
  Float64._survival_function (Fin 0, Fin 0, Fin 1) (Fin 1)
  = Float64.exp (Fin (- 1)).
Proof.
  destruct one_in_float_range as [H1 H2].
  apply (proj2 (f64_survival_at_reference_is_exponential
                  exp_family_upper_shape_one exp_family_MAX_nonneg
                  exp_634_lt_OMEGA exp_634_ge_1100) 1 H1 H2).
  rewrite ln_1. apply in_range_0.
Defined.





End Float64Instances.

(** ** The percentile on float64 *)

Section Float64Percentile.
Import Float.
Context {SF : Exact.SpecialFunctions}.
Local Existing Instance float64_functions.

Hypothesis lower_inverse : forall a p, 0 < a -> 0 < p < 1 ->
  0 < Exact.gammaincinv a p /\ Exact.gammainc a (Exact.gammaincinv a p) = p.
Hypothesis upper_inverse : forall a p, 0 < a -> 0 < p < 1 ->
  0 < Exact.gammainccinv a p /\ Exact.gammaincc a (Exact.gammainccinv a p) = p.

(** Where no intermediate result leaves the range, numpy's percentile is the
    real one. *)
Lemma f64_percentile_value (self : Exact.GeneralizedGammaFitter) (p : R) :
  Exact.lambda_ self <> 0 -> 0 < p < 1 ->
  Forall Float64.in_range
    (percentile_intermediates (Exact.mu_ self) (Exact.ln_sigma_ self)
                              (Exact.lambda_ self) p) ->
  Float64.percentile (float64_fitter self) (Fin p)
  = Fin (Exact.percentile self p).
Proof.
  destruct self as [mu ls lambda]. cbn [Exact.mu_ Exact.ln_sigma_ Exact.lambda_].
  intros Hl Hp Hall.
  pose proof (sqr_nonzero lambda Hl) as Hsq.
  assert (Hk : 0 < 1 / lambda ^ 2) by (apply shape_pos; assumption).
  assert (Hsqpos : 0 < lambda ^ 2) by (destruct (Rdichotomy _ _ Hl); nra).
  unfold percentile_intermediates in Hall.
  unfold Float64.percentile, Exact.percentile, float64_fitter.
  cbn [Float64.mu_ Float64.ln_sigma_ Float64.lambda_
       Exact.mu_ Exact.ln_sigma_ Exact.lambda_].
  destruct (Rgt_dec lambda 0) as [Hpos | Hneg].
  - destruct (upper_inverse _ p Hk Hp) as [Hg _].
    repeat match goal with
           | H : Forall _ (_ :: _) |- _ => inversion H; subst; clear H
           end.
    rewrite fgt0_pos by assumption.
    rewrite sqr_in_range by assumption.
    rewrite (div_in_range 1 (lambda ^ 2)) by assumption.
    change (Float.gammainccinv (Fin (1 / lambda ^ 2)) (Fin p))
      with (Float64.rnd (Exact.gammainccinv (1 / lambda ^ 2) p)).
    rewrite (rnd_in_range (Exact.gammainccinv _ _)) by assumption.
    rewrite mul_in_range by assumption.
    rewrite log_in_range by (try apply Rmult_lt_0_compat; assumption).
    rewrite !exp_in_range by assumption.
    rewrite mul_in_range by assumption.
    rewrite div_in_range by assumption.
    rewrite exp_in_range by assumption.
    apply mul_in_range; assumption.
  - destruct (lower_inverse _ p Hk Hp) as [Hg _].
    repeat match goal with
           | H : Forall _ (_ :: _) |- _ => inversion H; subst; clear H
           end.
    rewrite fgt0_nonpos by lra.
    rewrite sqr_in_range by assumption.
    rewrite (div_in_range 1 (lambda ^ 2)) by assumption.
    change (Float.gammaincinv (Fin (1 / lambda ^ 2)) (Fin p))
      with (Float64.rnd (Exact.gammaincinv (1 / lambda ^ 2) p)).
    rewrite (rnd_in_range (Exact.gammaincinv _ _)) by assumption.
    rewrite mul_in_range by assumption.
    rewrite log_in_range by (try apply Rmult_lt_0_compat; assumption).
    rewrite !exp_in_range by assumption.
    rewrite mul_in_range by assumption.
    rewrite div_in_range by assumption.
    rewrite exp_in_range by assumption.
    apply mul_in_range; assumption.
Qed.

Lemma percentile_pos (self : Exact.GeneralizedGammaFitter) (p : R) :
  0 < Exact.percentile self p.
Proof.
  unfold Exact.percentile.
  destruct (Rgt_dec (Exact.lambda_ self) 0);
    apply Rmult_lt_0_compat; apply exp_pos.
Qed.


End Float64Percentile.

Section Float64PercentileInstances.
Import Float.
Local Existing Instance exp_family.
Local Existing Instance float64_functions.

Lemma in_range_opp (r : R) : Float64.in_range r -> Float64.in_range (- r).
Proof.
  intros [-> | H]; [left; ring | right; rewrite Rabs_Ropp; exact H].
Qed.

Lemma in_range_1 : Float64.in_range 1.
Proof. apply in_range_moderate. rewrite Rabs_R1. lra. Qed.

Lemma f64_sqr_one : Float64.sqr (Fin 1) = Fin 1.
Proof.
  unfold Float64.sqr, fsqr, Float64.renorm. replace (1 ^ 2) with 1 by ring.
  apply rnd_in_range, in_range_1.
Qed.

Lemma f64_div_one (a : R) :
  Float64.in_range a -> Float64.div (Fin a) (Fin 1) = Fin a.
Proof.
  intro H. rewrite div_in_range; [f_equal; field | lra |].
  replace (a / 1) with a by field. assumption.
Qed.

Lemma f64_mul_one (a : R) :
  Float64.in_range a -> Float64.mul (Fin a) (Fin 1) = Fin a.
Proof.
  intro H. rewrite mul_in_range; [f_equal; ring |].
  replace (a * 1) with a by ring. assumption.
Qed.

Lemma f64_exp_zero : Float64.exp (Fin 0) = Fin 1.
Proof. rewrite exp_in_range; rewrite exp_0; [reflexivity | apply in_range_1]. Qed.

(** The probability of the instance, [exp(-exp(-1))], about 0.69. *)
Lemma instance_probability : 0 < exp (- exp (- 1)) < 1.
Proof.
  split; [apply exp_pos |].
  apply Rlt_le_trans with (exp 0); [| rewrite exp_0; lra].
  apply exp_increasing. pose proof (exp_pos (- 1)). lra.
Qed.

Lemma exp_family_inverse_at_instance :
  Float.gammainccinv (Fin 1) (Fin (exp (- exp (- 1)))) = Fin (exp (- 1)).
Proof.
  change (Float.gammainccinv (Fin 1) (Fin (exp (- exp (- 1)))))
    with (Float64.rnd (- ln (exp (- exp (- 1))))).
  rewrite ln_exp, Ropp_involutive.
  apply rnd_in_range, exp_in_range_moderate. lra.
Qed.

(** With [ln_sigma = 66] the percentile of [exp(-exp(-1))] underflows:
    it is [exp(-exp(66))], which is [0.0]. *)
Lemma f64_percentile_underflows :
  Float64.percentile
    (float64_fitter {| Exact.mu_ := 0; Exact.ln_sigma_ := 66; Exact.lambda_ := 1 |})
    (Fin (exp (- exp (- 1)))) = Fin 0.
Proof.
  pose proof exp_66_gt as H66.
  assert (Hr : Float64.in_range (exp 66)) by (apply exp_in_range_moderate; lra).
  unfold Float64.percentile, float64_fitter.
  cbn [Float64.mu_ Float64.ln_sigma_ Float64.lambda_
       Exact.mu_ Exact.ln_sigma_ Exact.lambda_].
  rewrite fgt0_pos by lra.
  rewrite f64_sqr_one, (f64_div_one 1 in_range_1).
  rewrite exp_family_inverse_at_instance.
  rewrite f64_mul_one by (apply exp_in_range_moderate; lra).
  rewrite log_in_range;
    [| apply exp_pos | rewrite ln_exp; apply in_range_opp, in_range_1].
  rewrite ln_exp.
  rewrite (exp_in_range 66) by assumption.
  rewrite mul_in_range;
    [| replace (exp 66 * -1) with (- exp 66) by ring;
       apply in_range_opp; assumption].
  replace (exp 66 * -1) with (- exp 66) by ring.
  rewrite f64_div_one by (apply in_range_opp; assumption).
  assert (Hu : Float64.exp (Fin (- exp 66)) = Fin 0).
  { apply rnd_underflow. rewrite Rabs_pos_eq by (left; apply exp_pos).
    apply exp_underflows. lra. }
  rewrite Hu, f64_exp_zero.
  rewrite mul_in_range; [f_equal; ring |].
  replace (0 * 1) with 0 by ring. apply in_range_0.
Qed.

(** At time [0.0] the logarithm is [-inf], the argument of the upper tail is
    [0.0] and the survival function is 1. *)
Lemma f64_survival_at_zero :
  Float64._survival_function (Fin 0, Fin 66, Fin 1) (Fin 0) = Fin 1.
Proof.
  assert (Hs : Float64.safe_exp (Fin 66) = Fin (exp 66)).
  { rewrite f64_safe_exp_in_range; rewrite Rmin_left by (cbn; lra);
      [reflexivity | apply exp_in_range_moderate; lra]. }
  unfold Float64._survival_function. rewrite Hs.
  rewrite fgt0_pos by lra.
  assert (Hlog : Float64.log (Fin 0) = NInf)
    by (unfold Float64.log; rewrite flog_zero; reflexivity).
  rewrite Hlog.
  assert (Hz : Float64.div (Float64.sub NInf (Fin 0)) (Fin (exp 66)) = NInf).
  { change (Float64.sub NInf (Fin 0)) with NInf.
    unfold Float64.div, fdiv.
    destruct (Rlt_dec (exp 66) 0) as [H | H]; [| reflexivity].
    pose proof (exp_pos 66). lra. }
  rewrite Hz.
  assert (Hm : Float64.mul (Fin 1) NInf = NInf).
  { unfold Float64.mul. cbn [fmul]. rewrite inf_times_pos by lra. reflexivity. }
  rewrite Hm, f64_log_one.
  assert (H2 : Float64.mul (Fin 2) (Fin 0) = Fin 0).
  { rewrite mul_in_range; [f_equal; ring |].
    replace (2 * 0) with 0 by ring. apply in_range_0. }
  rewrite H2.
  assert (He : Float64.safe_exp (Float64.sub NInf (Fin 0)) = Fin 0).
  { change (Float64.safe_exp (Float64.sub NInf (Fin 0)))
      with (Float64.rnd 0).
    apply rnd_in_range, in_range_0. }
  rewrite He, f64_sqr_one, (f64_div_one 1 in_range_1).
  change (Float.gammaincc (Fin 1) (Fin 0)) with (Float64.rnd (exp (- 0))).
  rewrite Ropp_0, exp_0. apply rnd_in_range, in_range_1.
Qed.


Lemma exp_family_reference_percentile :
  Exact.percentile
    {| Exact.mu_ := 0; Exact.ln_sigma_ := 0; Exact.lambda_ := 1 |} (exp (- 1))
  = 1.
Proof.
  unfold Exact.percentile. cbn [Exact.mu_ Exact.ln_sigma_ Exact.lambda_].
  destruct (Rgt_dec 1 0); [| lra].
  cbn [Exact.gammainccinv exp_family]. rewrite ln_exp, exp_0.
  replace (- -1 * 1 ^ 2) with 1 by ring. rewrite ln_1.
  replace (1 * 0 / 1) with 0 by field. rewrite exp_0. ring.
Qed.

Lemma exp_family_reference_percentile_in_range :
  Forall Float64.in_range (percentile_intermediates 0 0 1 (exp (- 1))).
Proof.
  assert (E : percentile_intermediates 0 0 1 (exp (- 1))
              = [1; 1; 1; 1; 1; 0; 0; 0; 1; 1; 1]).
  { unfold percentile_intermediates. destruct (Rgt_dec 1 0); [| lra].
    cbn [Exact.gammainccinv exp_family]. rewrite ln_exp, exp_0.
    replace (- -1 * 1 ^ 2) with 1 by ring. rewrite ln_1.
    replace (1 * 0 / 1) with 0 by field. rewrite exp_0.
    repeat (apply (f_equal2 cons); [try reflexivity; field |]). reflexivity. }
  rewrite E.
  repeat (apply Forall_cons; [first [apply in_range_0 | apply in_range_1] |]).
  apply Forall_nil.
Qed.


End Float64PercentileInstances.

(* ================================================================= *)
(** * Part V: the value of the initial point *)
(* ================================================================= *)


Section InitialPointValue.

Lemma exp_sum_ln (data : list R) :
  Forall (fun x => 0 < x) data ->
  exp (fold_right Rplus 0 (map ln data)) = fold_right Rmult 1 data.
Proof.
  induction 1 as [| x l Hx _ IH]; cbn [map fold_right].
  - apply exp_0.
  - rewrite exp_plus, IH, exp_ln by assumption. reflexivity.
Qed.

Lemma sum_squares_nonneg (f : R -> R) (l : list R) :
  0 <= fold_right Rplus 0 (map (fun x => f x ^ 2) l).
Proof.
  induction l as [| x l IH]; cbn [map fold_right]; [lra |].
  pose proof (pow2_ge_0 (f x)). lra.
Qed.

Lemma sum_squares_zero (f : R -> R) (l : list R) :
  fold_right Rplus 0 (map (fun x => f x ^ 2) l) = 0 ->
  forall x, In x l -> f x = 0.
Proof.
  induction l as [| y l IH]; cbn [map fold_right]; intros H x Hin;
    [destruct Hin |].
  pose proof (pow2_ge_0 (f y)) as Hy.
  pose proof (sum_squares_nonneg f l) as Hl.
  destruct Hin as [-> | Hin].
  - assert (H0 : f x ^ 2 = 0) by lra.
    destruct (Req_dec (f x) 0) as [E | E]; [exact E |].
    exfalso. destruct (Rdichotomy _ _ E); nra.
  - apply IH; [lra | assumption].
Qed.

(** Two different positive entries leave a positive sum of squared
    deviations of the logarithms, whatever the centre. *)
Lemma two_values_deviate (data : list R) (m x y : R) :
  Forall (fun x => 0 < x) data ->
  In x data -> In y data -> x <> y ->
  0 < fold_right Rplus 0 (map (fun x => (ln x - m) ^ 2) data).
Proof.
  intros Hpos Hx Hy Hxy.
  pose proof (sum_squares_nonneg (fun x => ln x - m) data) as H0.
  destruct (Req_dec (fold_right Rplus 0 (map (fun x => (ln x - m) ^ 2) data)) 0)
    as [E | E]; [| lra].
  exfalso. apply Hxy.
  pose proof (sum_squares_zero (fun x => ln x - m) data E) as Hz.
  rewrite Forall_forall in Hpos.
  apply ln_inv; [apply Hpos | apply Hpos |]; try assumption.
  pose proof (Hz x Hx). pose proof (Hz y Hy). cbv beta in *. lra.
Qed.

(** C8: on a non-degenerate input (the selected array is positive and has
    two different entries) the initial point is the triple [(m, s, 0.1)]
    where [m] is the mean of the logarithms, that is [exp(n m)] is the
    product of the [n] entries, and [exp(s)] is their population standard
    deviation, that is [n exp(s)^2] is the sum of the squared deviations of
    the logarithms from [m].  The array is [Ts[0]] under right censoring,
    [Ts[1]] under left censoring and the elementwise difference
    [Ts[1] - Ts[0]] (upper minus lower, the two arrays having one length)
    under interval censoring; the result does not depend on [E]. *)
Theorem create_initial_point_characterised (ct : CensoringType)
    (Ts : list R * list R) (E : list bool) (data : list R) :
  data = match ct with
         | RIGHT => fst Ts
         | LEFT => snd Ts
         | INTERVAL => map (fun lu => snd lu - fst lu) (combine (fst Ts) (snd Ts))
         end ->
  (ct = INTERVAL -> length (fst Ts) = length (snd Ts)) ->
  Forall (fun x => 0 < x) data ->
  (exists x y, In x data /\ In y data /\ x <> y) ->
  exists m s,
    _create_initial_point ct Ts E = Some (m, s, 1 / 10) /\
    exp (INR (length data) * m) = fold_right Rmult 1 data /\
    INR (length data) * exp s ^ 2
      = fold_right Rplus 0 (map (fun x => (ln x - m) ^ 2) data) /\
    forall E', _create_initial_point ct Ts E' = _create_initial_point ct Ts E.
Proof.
  intros Hdata Hlen Hpos (x & y & Hx & Hy & Hxy).
  assert (Hne : data <> []) by (intros ->; destruct Hx).
  pose proof (INR_length_nonzero data Hne) as Hn.
  assert (Hn0 : 0 < INR (length data)).
  { destruct data; [contradiction |]. apply lt_0_INR. cbn. apply Nat.lt_0_succ. }
  exists (np_mean (np_log data)), (ln (np_std (np_log data))).
  split; [apply create_initial_point_selected; assumption |].
  assert (Hm : np_mean (np_log data)
               = fold_right Rplus 0 (map ln data) / INR (length data)).
  { unfold np_mean, np_sum, np_log. rewrite length_map. reflexivity. }
  assert (Hs : np_std (np_log data)
               = sqrt (fold_right Rplus 0
                         (map (fun x => (ln x - np_mean (np_log data)) ^ 2) data)
                       / INR (length data))).
  { unfold np_std. f_equal. set (m := np_mean (np_log data)).
    unfold np_mean, np_sum, np_log. rewrite map_map, !length_map.
    reflexivity. }
  pose proof (two_values_deviate data (np_mean (np_log data)) x y
                Hpos Hx Hy Hxy) as Hdev.
  split; [| split]; [| | reflexivity].
  - rewrite Hm. replace (INR (length data) * (_ / INR (length data)))
      with (fold_right Rplus 0 (map ln data)) by (field; assumption).
    apply exp_sum_ln; assumption.
  - rewrite Hs.
    set (V := fold_right Rplus 0 _ / INR (length data)).
    assert (HV : 0 < V) by (apply Rdiv_lt_0_compat; assumption).
    rewrite exp_ln by (apply sqrt_lt_R0; assumption).
    rewrite pow2_sqrt by lra. unfold V. field. assumption.
Qed.

Lemma create_initial_point_characterised_witness :
  exists m s,
    _create_initial_point RIGHT ([1; 2; 4; 8; 16], []) [] = Some (m, s, 1 / 10) /\
    exp (INR 5 * m) = 1 * (2 * (4 * (8 * (16 * 1)))) /\
    INR 5 * exp s ^ 2
      = fold_right Rplus 0 (map (fun x => (ln x - m) ^ 2) [1; 2; 4; 8; 16]) /\
    forall E', _create_initial_point RIGHT ([1; 2; 4; 8; 16], []) E'
               = _create_initial_point RIGHT ([1; 2; 4; 8; 16], []) [].
Proof.
  apply (create_initial_point_characterised RIGHT ([1; 2; 4; 8; 16], []) []
           [1; 2; 4; 8; 16]).
  - reflexivity.
  - discriminate.
  - repeat (apply Forall_cons; [lra |]). apply Forall_nil.
  - exists 1, 2. cbn [In]. repeat split; [left; reflexivity | right; left; reflexivity | lra].
Defined.

End InitialPointValue.
